(** * os-find: the directory walker and its entry filter (src/main.cpp)

    A shallow embedding of [matches], [visit], [set_args] and [main].
    The globals of the program become a record that is passed around, the
    result vector, the descriptor table, standard output and the system
    calls issued become an explicit [world], and the kernel's answers are
    read off a tree that mirrors the directory tree being walked. *)

From Stdlib Require Import ZArith Ascii String List Bool Lia.
From stdpp Require Import base decidable numbers list strings gmap sets.

Local Open Scope string_scope.
Local Open Scope Z_scope.

(** ** Data model *)

(** [enum class SizeMode] *)
Inductive SizeMode : Type := NONE | LESS | EQUAL | GREATER.

#[global] Instance SizeMode_eq_dec : EqDecision SizeMode.
Proof. solve_decision. Defined.

(** [struct linux_dirent64]: [d_off] and [d_reclen] only serve to step
    through the buffer and are represented by the position in a batch. *)
Record linux_dirent64 : Type := {
  d_ino : Z;
  d_type : Z;
  d_name : string
}.

(** Entry types of <dirent.h> used by the walker. *)
Definition DT_DIR : Z := 4.
Definition DT_REG : Z := 8.
Definition DT_LNK : Z := 10.

(** The two fields of [struct stat] the filter reads. *)
Record stat : Type := {
  st_size : Z;
  st_nlink : Z
}.

(** The globals written by [set_args] and read by [matches]. *)
Record globals : Type := {
  inode_target : Z;
  name_target : string;
  size_mode : SizeMode;
  size_target : Z;
  nlinks_target : Z;
  exec_target : string
}.

(** Zero initialisation of the namespace-scope variables. *)
Definition globals0 : globals := {|
  inode_target := 0;
  name_target := "";
  size_mode := NONE;
  size_target := 0;
  nlinks_target := 0;
  exec_target := ""
|}.

(** Open flags, only told apart in the system-call log. *)
Inductive oflag : Type := O_RDONLY | O_RDONLY_DIRECTORY.

(** The system calls on files, directories and the process image, as they
    are issued, with the value they returned. What the program writes to
    standard output is kept in [cout] and is not part of this log. *)
Inductive syscall : Type :=
| SysOpen (path : string) (fl : oflag) (ret : Z)
| SysOpenat (dir_fd : Z) (name : string) (fl : oflag) (ret : Z)
| SysFstat (fd : Z) (ret : Z)
| SysGetdents64 (fd : Z) (ret : Z)
| SysClose (fd : Z)
| SysExecv (path : string) (args : list string) (failed : bool).

(** Everything the program changes while it runs. *)
Record world : Type := {
  results : list string;      (* std::vector<string> results *)
  open_fds : gset Z;          (* descriptors currently open *)
  cout : string;              (* what was written to std::cout *)
  calls : list syscall        (* calls on files and directories, oldest first *)
}.

(** The program starts with the three standard streams open. *)
Definition world0 : world := {|
  results := [];
  open_fds := {[0; 1; 2]};
  cout := "";
  calls := []
|}.

Definition endl : string := String (ascii_of_nat 10) "".

Definition print (s : string) (w : world) : world :=
  {| results := results w; open_fds := open_fds w;
     cout := cout w +:+ s; calls := calls w |}.

Definition log (c : syscall) (w : world) : world :=
  {| results := results w; open_fds := open_fds w;
     cout := cout w; calls := calls w ++ [c] |}.

Definition push_back (p : string) (w : world) : world :=
  {| results := results w ++ [p]; open_fds := open_fds w;
     cout := cout w; calls := calls w |}.

(** [print_error]: the description of [errno] on a line of its own. *)
Definition print_error (err : string) (w : world) : world :=
  print (err +:+ endl) w.

(** *** The descriptor table *)

(** A successful open returns the lowest descriptor that is not open. *)
Fixpoint lowest_free_from (fuel : nat) (n : Z) (X : gset Z) : Z :=
  match fuel with
  | O => n
  | S fuel' => if decide (n ∈ X) then lowest_free_from fuel' (n + 1) X else n
  end.

Definition lowest_free (X : gset Z) : Z := lowest_free_from (size X) 0 X.

Definition fd_open (fd : Z) (w : world) : world :=
  {| results := results w; open_fds := {[fd]} ∪ open_fds w;
     cout := cout w; calls := calls w |}.

Definition fd_close (fd : Z) (w : world) : world :=
  {| results := results w; open_fds := open_fds w ∖ {[fd]};
     cout := cout w; calls := calls w |}.

(** [close(fd)] *)
Definition close (fd : Z) (w : world) : world :=
  log (SysClose fd) (fd_close fd w).

(** *** What the kernel answers *)

(** Answer to [openat(dir_fd, name, O_RDONLY)] followed by [fstat]. *)
Inductive file_answer : Type :=
| OpenFails (err : string)
| StatFails (err : string)
| StatOk (st : stat).

(** Answer to one [getdents64] call: -1 with an errno, or the records put
    in the buffer (none: the call returned 0). *)
Inductive getdents (E : Type) : Type :=
| ReadFails (err : string)
| ReadOk (batch : list E).
Arguments ReadFails {E} err.
Arguments ReadOk {E} batch.

(** Answer to [openat(dir_fd, name, O_RDONLY | O_DIRECTORY)]. *)
Inductive opendir (S : Type) : Type :=
| DirFails (err : string)
| DirOpens (s : S).
Arguments DirFails {S} err.
Arguments DirOpens {S} s.

(** A name in a directory, seen through the calls the program can make on
    it, and the successive answers of [getdents64] on an open directory.
    Once the list of answers is used up the call returns 0. *)
Inductive node : Type :=
| Node (as_file : file_answer) (as_dir : opendir dirstream)
with dirstream : Type :=
| Stream (reads : list (getdents (linux_dirent64 * node))).

Definition as_file (n : node) : file_answer :=
  match n with Node f _ => f end.
Definition as_dir (n : node) : opendir dirstream :=
  match n with Node _ d => d end.
Definition reads (s : dirstream) : list (getdents (linux_dirent64 * node)) :=
  match s with Stream rs => rs end.

Abbreviation dentry := (linux_dirent64 * node)%type.

(** ** The entry filter *)

(** [openat]: logs the call; on success the new descriptor is open. *)
Definition openat (dir_fd : Z) (name : string) (fl : oflag) (ok : bool)
    (w : world) : Z * world :=
  if ok then
    let fd := lowest_free (open_fds w) in
    (fd, log (SysOpenat dir_fd name fl fd) (fd_open fd w))
  else (-1, log (SysOpenat dir_fd name fl (-1)) w).

Definition opens (a : file_answer) : bool :=
  match a with OpenFails _ => false | _ => true end.

Definition errno_of (a : file_answer) : string :=
  match a with OpenFails e => e | StatFails e => e | StatOk _ => "" end.

(** The [switch (size_mode)] of [matches]: [true] when the function does
    not return [false] there. *)
Definition size_check (g : globals) (stats : stat) : bool :=
  match size_mode g with
  | NONE => true
  | LESS => negb (size_target g <? st_size stats)
  | EQUAL => negb (negb (st_size stats =? size_target g))
  | GREATER => negb (st_size stats <? size_target g)
  end.

Definition nlinks_check (g : globals) (stats : stat) : bool :=
  negb (negb (nlinks_target g =? 0) && negb (nlinks_target g =? st_nlink stats)).

(** [bool matches(linux_dirent64* entry, int dir_fd, string const& dir_path)];
    [a] is what the kernel answers for [entry->d_name] under [dir_fd]. *)
Definition matches (g : globals) (entry : linux_dirent64) (a : file_answer)
    (dir_fd : Z) (dir_path : string) (w : world) : bool * world :=
  if negb (inode_target g =? 0) && negb (d_ino entry =? inode_target g) then
    (false, w)
  else if negb (String.eqb (name_target g) "")
          && negb (String.eqb (d_name entry) (name_target g)) then
    (false, w)
  else if bool_decide (size_mode g = NONE) && (nlinks_target g =? 0) then
    (true, w)
  else
    let '(fd, w1) := openat dir_fd (d_name entry) O_RDONLY (opens a) w in
    if fd =? -1 then
      (false,
       print_error (errno_of a)
         (print ("Error opening file at " +:+ dir_path +:+ d_name entry +:+ endl) w1))
    else
      match a with
      | StatOk stats =>
          let w2 := log (SysFstat fd 0) w1 in
          if negb (size_check g stats) then (false, w2)
          else if negb (nlinks_check g stats) then (false, w2)
          else (true, w2)
      | _ =>
          let w2 := log (SysFstat fd (-1)) w1 in
          (false,
           print_error (errno_of a)
             (print ("Error reading stats of file at " +:+ dir_path
                     +:+ d_name entry +:+ endl) w2))
      end.

(** ** The tree walker *)

Definition is_dot (name : string) : bool :=
  String.eqb name "." || String.eqb name "..".

Section Walker.

(** The walker is written over the filter it calls, so that statements
    can say what it does whatever the filter is; [visit] below is the
    walker with [matches]. *)
Variable filter :
  linux_dirent64 -> file_answer -> Z -> string -> world -> bool * world.

(** One turn of the [for] loop over the records of a buffer; [rec] is
    the recursive call. *)
Definition scan_entry (rec : dirstream -> Z -> string -> world -> world)
    (dir_fd : Z) (path : string) (w : world) (e : dentry) : world :=
  let '(entry, nd) := e in
  let name := d_name entry in
  if is_dot name then w
  else
    let '(m, w1) :=
      if d_type entry =? DT_REG then filter entry (as_file nd) dir_fd path w
      else (false, w) in
    if m then push_back (path +:+ d_name entry) w1
    else if d_type entry =? DT_DIR then
      match as_dir nd with
      | DirFails err =>
          let '(fd, w2) := openat dir_fd (d_name entry) O_RDONLY_DIRECTORY false w1 in
          print_error err
            (print ("Error reading contents of " +:+ path +:+ name +:+ "/" +:+ endl) w2)
      | DirOpens sub =>
          let '(fd, w2) := openat dir_fd (d_name entry) O_RDONLY_DIRECTORY true w1 in
          close fd (rec sub fd (path +:+ name +:+ "/") w2)
      end
    else w1.

(** [void visit(int dir_fd, string const& path)], on the answers [s] the
    kernel gives for the directory behind [dir_fd]. The value logged for
    [getdents64] is the number of records delivered (-1: failure). *)
Fixpoint visit_with (s : dirstream) (dir_fd : Z) (path : string) (w : world)
    {struct s} : world :=
  match s with
  | Stream rs =>
      (fix loop (rs : list (getdents dentry)) (w : world) {struct rs} : world :=
         match rs with
         | [] => log (SysGetdents64 dir_fd 0) w
         | ReadFails err :: _ =>
             print_error err
               (print ("Error reading contents of " +:+ path +:+ endl)
                  (log (SysGetdents64 dir_fd (-1)) w))
         | ReadOk [] :: _ => log (SysGetdents64 dir_fd 0) w
         | ReadOk batch :: rs' =>
             loop rs'
               (fold_left (scan_entry visit_with dir_fd path) batch
                  (log (SysGetdents64 dir_fd (Z.of_nat (length batch))) w))
         end) rs w
  end.

End Walker.

Definition visit (g : globals) : dirstream -> Z -> string -> world -> world :=
  visit_with (matches g).

(** ** Command line *)

(** *** std::stoi and std::stoul in base 10

    Both skip leading white space, take an optional sign and the longest
    run of decimal digits, and ignore what follows. Without a digit they
    throw [std::invalid_argument], out of range [std::out_of_range]; both
    are [std::logic_error]s, modelled by [None]. *)

Definition is_space (c : ascii) : bool :=
  let n := nat_of_ascii c in
  (Nat.eqb n 32 || (Nat.leb 9 n && Nat.leb n 13))%bool.

Fixpoint skip_spaces (s : string) : string :=
  match s with
  | String c s' => if is_space c then skip_spaces s' else s
  | EmptyString => s
  end.

Definition digit_of (c : ascii) : option Z :=
  let n := Z.of_nat (nat_of_ascii c) in
  if (48 <=? n) && (n <=? 57) then Some (n - 48) else None.

(** Value of the leading digits of [s] after the digits summed in [acc]. *)
Fixpoint digits_from (s : string) (acc : Z) : Z :=
  match s with
  | String c s' =>
      match digit_of c with
      | Some d => digits_from s' (10 * acc + d)
      | None => acc
      end
  | EmptyString => acc
  end.

Definition starts_with_digit (s : string) : bool :=
  match s with
  | String c _ => match digit_of c with Some _ => true | None => false end
  | EmptyString => false
  end.

(** Sign and magnitude of the number [s] starts with, if any. *)
Definition parse_number (s : string) : option (bool * Z) :=
  let s1 := skip_spaces s in
  let '(neg, s2) :=
    match s1 with
    | String "-" t => (true, t)
    | String "+" t => (false, t)
    | _ => (false, s1)
    end in
  if starts_with_digit s2 then Some (neg, digits_from s2 0) else None.

Definition INT_MIN : Z := - 2 ^ 31.
Definition INT_MAX : Z := 2 ^ 31 - 1.
Definition ULONG_MAX : Z := 2 ^ 64 - 1.

Definition stoi (s : string) : option Z :=
  match parse_number s with
  | Some (neg, m) =>
      let v := if neg then - m else m in
      if (INT_MIN <=? v) && (v <=? INT_MAX) then Some v else None
  | None => None
  end.

(** [strtoul] negates a number written with a minus sign in unsigned
    arithmetic. *)
Definition stoul (s : string) : option Z :=
  match parse_number s with
  | Some (neg, m) =>
      if m <=? ULONG_MAX then Some (if neg then (- m) mod 2 ^ 64 else m)
      else None
  | None => None
  end.

(** *** set_args *)

(** [argv[i][0]], which is the terminating NUL of an empty argument. *)
Definition first_char (s : string) : ascii :=
  match s with
  | String c _ => c
  | EmptyString => zero
  end.

(** [argv[i+1] + 1]: the C string after its first character. *)
Definition skip_first (s : string) : string :=
  match s with
  | String _ t => t
  | EmptyString => EmptyString
  end.

Definition error_multiple_specified (s : string) (w : world) : world :=
  print ("Only one " +:+ s +:+ " can be specified" +:+ endl) w.

Definition with_inode_target (v : Z) (g : globals) : globals :=
  {| inode_target := v; name_target := name_target g; size_mode := size_mode g;
     size_target := size_target g; nlinks_target := nlinks_target g;
     exec_target := exec_target g |}.
Definition with_name_target (v : string) (g : globals) : globals :=
  {| inode_target := inode_target g; name_target := v; size_mode := size_mode g;
     size_target := size_target g; nlinks_target := nlinks_target g;
     exec_target := exec_target g |}.
Definition with_size_mode (v : SizeMode) (g : globals) : globals :=
  {| inode_target := inode_target g; name_target := name_target g; size_mode := v;
     size_target := size_target g; nlinks_target := nlinks_target g;
     exec_target := exec_target g |}.
Definition with_size_target (v : Z) (g : globals) : globals :=
  {| inode_target := inode_target g; name_target := name_target g;
     size_mode := size_mode g; size_target := v;
     nlinks_target := nlinks_target g; exec_target := exec_target g |}.
Definition with_nlinks_target (v : Z) (g : globals) : globals :=
  {| inode_target := inode_target g; name_target := name_target g;
     size_mode := size_mode g; size_target := size_target g;
     nlinks_target := v; exec_target := exec_target g |}.
Definition with_exec_target (v : string) (g : globals) : globals :=
  {| inode_target := inode_target g; name_target := name_target g;
     size_mode := size_mode g; size_target := size_target g;
     nlinks_target := nlinks_target g; exec_target := v |}.

(** The branch of the loop for an option [option] with value [value]:
    [inl] when the loop goes on, [inr] when [set_args] returns -1. *)
Definition set_option (option value : string) (g : globals) (w : world)
    : globals * world + globals * world :=
  if String.eqb option "-inum" then
    if negb (inode_target g =? 0) then
      inr (g, error_multiple_specified "inode number" w)
    else
      match stoul value with
      | Some v => inl (with_inode_target v g, w)
      | None => inr (g, print ("Bad -inum argument" +:+ endl) w)
      end
  else if String.eqb option "-name" then
    if negb (String.eqb (name_target g) "") then
      inr (g, error_multiple_specified "file name" w)
    else inl (with_name_target value g, w)
  else if String.eqb option "-size" then
    if negb (bool_decide (size_mode g = NONE)) then
      inr (g, error_multiple_specified "file size" w)
    else
      let '(mode_specified, g1) :=
        if Ascii.eqb (first_char value) "-" then (true, with_size_mode LESS g)
        else if Ascii.eqb (first_char value) "=" then (true, with_size_mode EQUAL g)
        else if Ascii.eqb (first_char value) "+" then (true, with_size_mode GREATER g)
        else (false, g) in
      match stoi (if mode_specified then skip_first value else value) with
      | Some v => inl (with_size_target v g1, w)
      | None => inr (g1, print ("Bad -size argument" +:+ endl) w)
      end
  else if String.eqb option "-nlinks" then
    if negb (nlinks_target g =? 0) then
      inr (g, error_multiple_specified "hardlinks number" w)
    else
      match stoul value with
      | Some v => inl (with_nlinks_target v g, w)
      | None => inr (g, print ("Bad -nlinks argument" +:+ endl) w)
      end
  else if String.eqb option "-exec" then
    if negb (String.eqb (exec_target g) "") then
      inr (g, error_multiple_specified "execution target" w)
    else inl (with_exec_target value g, w)
  else inr (g, print ("Unknown option used: " +:+ option +:+ endl) w).

(** The [for] loop of [set_args] on the arguments from index [i] on, and
    the code after it. Returns the value of [set_args]. *)
Fixpoint set_args_loop (args : list string) (i : Z) (hasDir : bool)
    (dirPosition : Z) (g : globals) (w : world) : Z * globals * world :=
  match args with
  | [] =>
      if negb hasDir then
        (-1, g, print ("Usage: os-find [OPTIONS] DIRECTORY" +:+ endl) w)
      else (dirPosition, g, w)
  | a :: rest =>
      if Ascii.eqb (first_char a) "-" then
        match rest with
        | [] => (-1, g, print ("Option " +:+ a +:+ " is missing its value") w)
        | value :: rest' =>
            match set_option a value g w with
            | inl (g', w') => set_args_loop rest' (i + 2) hasDir dirPosition g' w'
            | inr (g', w') => (-1, g', w')
            end
        end
      else if hasDir then (-1, g, error_multiple_specified "directory" w)
      else set_args_loop rest (i + 1) true i g w
  end.

(** [int set_args(int argc, char* argv[])] *)
Definition set_args (argv : list string) (g : globals) (w : world)
    : Z * globals * world :=
  set_args_loop (tail argv) 1 false 0 g w.

(** *** main *)

(** [path.back()], undefined on an empty string. *)
Fixpoint back (s : string) : option ascii :=
  match s with
  | EmptyString => None
  | String c EmptyString => Some c
  | String _ s' => back s'
  end.

(** The prefix [main] hands to [visit] for the directory argument [arg]. *)
Definition root_path (arg : string) : option string :=
  match back arg with
  | None => None
  | Some c => Some (if negb (Ascii.eqb c "/") then arg +:+ "/" else arg)
  end.

Definition print_results (w : world) : world :=
  fold_left (fun w result => print (result +:+ endl) w) (results w) w.

(** [int main(int argc, char* argv[])]. [root] is the kernel's answer to
    opening the directory argument, [execv_errno] the errno of [execv] when
    it fails; when it succeeds the program ends there. [None]: the
    behaviour is undefined. *)
Definition main (argv : list string) (root : opendir dirstream)
    (execv_errno : option string) : option (globals * world) :=
  let '(dirPosition, g, w) := set_args argv globals0 world0 in
  if dirPosition =? -1 then Some (g, w)
  else
    match nth_error argv (Z.to_nat dirPosition) with
    | None => None
    | Some arg =>
        match root_path arg with
        | None => None
        | Some path =>
            match root with
            | DirFails err =>
                let w1 := log (SysOpen arg O_RDONLY_DIRECTORY (-1)) w in
                Some (g, print_error err
                           (print ("Error reading contents of " +:+ path +:+ endl) w1))
            | DirOpens s =>
                let fd := lowest_free (open_fds w) in
                let w1 := log (SysOpen arg O_RDONLY_DIRECTORY fd) (fd_open fd w) in
                let w2 := close fd (visit g s fd path w1) in
                if String.eqb (exec_target g) "" then Some (g, print_results w2)
                else
                  let c_results := exec_target g :: results w2 in
                  match execv_errno with
                  | None => Some (g, log (SysExecv (exec_target g) c_results false) w2)
                  | Some err =>
                      Some (g, print_error err
                                 (print ("Error executing " +:+ exec_target g +:+ endl)
                                    (log (SysExecv (exec_target g) c_results true) w2)))
                  end
            end
        end
    end.

(** ** The loops of the walker by name *)

(** The [for] loop over one buffer. *)
Definition visit_batch (filter : linux_dirent64 -> file_answer -> Z -> string -> world -> bool * world)
    (dir_fd : Z) (path : string) (batch : list dentry) (w : world) : world :=
  fold_left (scan_entry filter (visit_with filter) dir_fd path) batch w.

(** The [while (true)] loop over the answers of [getdents64]. *)
Fixpoint visit_reads (filter : linux_dirent64 -> file_answer -> Z -> string -> world -> bool * world)
    (dir_fd : Z) (path : string) (rs : list (getdents dentry)) (w : world) : world :=
  match rs with
  | [] => log (SysGetdents64 dir_fd 0) w
  | ReadFails err :: _ =>
      print_error err
        (print ("Error reading contents of " +:+ path +:+ endl)
           (log (SysGetdents64 dir_fd (-1)) w))
  | ReadOk [] :: _ => log (SysGetdents64 dir_fd 0) w
  | ReadOk batch :: rs' =>
      visit_reads filter dir_fd path rs'
        (visit_batch filter dir_fd path batch
           (log (SysGetdents64 dir_fd (Z.of_nat (length batch))) w))
  end.

(** The first turns of the [while] loop, one per buffer of [batches]. *)
Fixpoint visit_reads_prefix (filter : linux_dirent64 -> file_answer -> Z -> string -> world -> bool * world)
    (dir_fd : Z) (path : string) (batches : list (list dentry)) (w : world) : world :=
  match batches with
  | [] => w
  | batch :: batches' =>
      visit_reads_prefix filter dir_fd path batches'
        (visit_batch filter dir_fd path batch
           (log (SysGetdents64 dir_fd (Z.of_nat (length batch))) w))
  end.

(** ** Induction over a tree

    [below P e]: [P] holds of the directory behind the entry [e], if it is
    one that opens; [below_read P r]: of those behind the records of [r]. *)

Definition below (P : dirstream -> Prop) (e : dentry) : Prop :=
  match as_dir (snd e) with
  | DirOpens sub => P sub
  | DirFails _ => True
  end.

Definition below_read (P : dirstream -> Prop) (r : getdents dentry) : Prop :=
  match r with
  | ReadOk batch => Forall (below P) batch
  | ReadFails _ => True
  end.

(** ** Reading the criteria *)

(** A field of the criteria is satisfied when it is unset or met. *)
Definition inode_ok (g : globals) (entry : linux_dirent64) : Prop :=
  inode_target g = 0 \/ d_ino entry = inode_target g.

Definition name_ok (g : globals) (entry : linux_dirent64) : Prop :=
  name_target g = "" \/ d_name entry = name_target g.

Definition size_ok (g : globals) (stats : stat) : Prop :=
  match size_mode g with
  | NONE => True
  | LESS => st_size stats <= size_target g
  | EQUAL => st_size stats = size_target g
  | GREATER => st_size stats >= size_target g
  end.

Definition nlinks_ok (g : globals) (stats : stat) : Prop :=
  nlinks_target g = 0 \/ st_nlink stats = nlinks_target g.

(** The tests on the inode number and on the name, the first two tests
    of [matches], as one boolean. *)
Definition cheap_checks (g : globals) (entry : linux_dirent64) : bool :=
  negb (negb (inode_target g =? 0) && negb (d_ino entry =? inode_target g))
  && negb (negb (String.eqb (name_target g) "")
           && negb (String.eqb (d_name entry) (name_target g))).

(** The criteria ask for the size or the link count. *)
Definition needs_stat (g : globals) : bool :=
  negb (bool_decide (size_mode g = NONE) && (nlinks_target g =? 0)).

(** The decision of [matches], which depends neither on the descriptor
    nor on the path nor on the world it is called in
    (lemma [matches_decision]). *)
Definition accepts (g : globals) (entry : linux_dirent64) (a : file_answer) : bool :=
  fst (matches g entry a 0 "" world0).

(** ** The ResultSet in the spec's words

    Pre-order: the entries of a directory in the order the stream yields
    them, a matching regular file contributing its path, a subdirectory
    the whole list of its own subtree at the point where it is seen. *)

(** The records the walker gets to see in a directory: the batches up to
    the first failed or empty read. *)
Fixpoint entries_read (rs : list (getdents dentry)) : list dentry :=
  match rs with
  | ReadOk (e :: batch) :: rs' => (e :: batch) ++ entries_read rs'
  | _ => []
  end.

Definition matched_entry (rec : dirstream -> string -> list string)
    (g : globals) (path : string) (e : dentry) : list string :=
  let '(entry, nd) := e in
  if is_dot (d_name entry) then []
  else if (d_type entry =? DT_REG) && accepts g entry (as_file nd) then
    [path +:+ d_name entry]
  else if d_type entry =? DT_DIR then
    match as_dir nd with
    | DirOpens sub => rec sub (path +:+ d_name entry +:+ "/")
    | DirFails _ => []
    end
  else [].

Fixpoint preorder_matches (g : globals) (s : dirstream) (path : string)
    {struct s} : list string :=
  match s with
  | Stream rs =>
      (fix loop (rs : list (getdents dentry)) : list string :=
         match rs with
         | ReadOk (e :: batch) :: rs' =>
             (flat_map (matched_entry (preorder_matches g) g path) (e :: batch)
              ++ loop rs')%list
         | _ => []
         end) rs
  end.

(** The contribution of one entry to the ResultSet. *)
Definition entry_matches (g : globals) (path : string) (e : dentry) : list string :=
  matched_entry (preorder_matches g) g path e.

(** The walk of [sub] appends the ResultSet of the spec, wherever it
    starts. *)
Definition results_as_spec (g : globals) (sub : dirstream) : Prop :=
  forall fd p w,
    results (visit g sub fd p w) = (results w ++ preorder_matches g sub p)%list.

(** [walked path s dir e]: walking [s] with the prefix [path], the walker
    scans the record [e] in the directory whose prefix is [dir]. *)
Inductive walked : string -> dirstream -> string -> dentry -> Prop :=
| walked_here path rs e :
    In e (entries_read rs) ->
    is_dot (d_name (fst e)) = false ->
    walked path (Stream rs) path e
| walked_below path rs entry nd sub dir e :
    In (entry, nd) (entries_read rs) ->
    is_dot (d_name entry) = false ->
    d_type entry = DT_DIR ->
    as_dir nd = DirOpens sub ->
    walked (path +:+ d_name entry +:+ "/") sub dir e ->
    walked path (Stream rs) dir e.

(** *** Directory trees

    In a directory of a file system no two entries have the same name and
    no name contains a slash; [well_formed] asks this of every directory
    of the tree. *)

Fixpoint slash_free (s : string) : bool :=
  match s with
  | EmptyString => true
  | String c s' => negb (Ascii.eqb c "/") && slash_free s'
  end.

Definition names_read (rs : list (getdents dentry)) : list string :=
  map (fun e : dentry => d_name (fst e)) (entries_read rs).

Definition names_ok (rs : list (getdents dentry)) : bool :=
  bool_decide (NoDup (names_read rs)) && forallb slash_free (names_read rs).

Fixpoint well_formed (s : dirstream) : bool :=
  match s with
  | Stream rs =>
      names_ok rs
      && forallb (fun r : getdents dentry =>
                    match r with
                    | ReadOk batch =>
                        forallb (fun e : dentry =>
                                   match as_dir (snd e) with
                                   | DirOpens sub => well_formed sub
                                   | DirFails _ => true
                                   end) batch
                    | ReadFails _ => true
                    end) rs
  end.

(** *** Command lines *)

Definition known_option (o : string) : bool :=
  bool_decide (o ∈ ["-inum"; "-name"; "-size"; "-nlinks"; "-exec"]).

(** The arguments in option position, each taking the next as its value,
    and the remaining, positional ones. *)
Fixpoint options_of (args : list string) : list string :=
  match args with
  | [] => []
  | a :: rest =>
      if Ascii.eqb (first_char a) "-" then
        a :: match rest with
             | [] => []
             | _ :: rest' => options_of rest'
             end
      else options_of rest
  end.

Fixpoint directories_of (args : list string) : list string :=
  match args with
  | [] => []
  | a :: rest =>
      if Ascii.eqb (first_char a) "-" then
        match rest with
        | [] => []
        | _ :: rest' => directories_of rest'
        end
      else a :: directories_of rest
  end.

(** The test [set_args] makes before it takes a value for the option [o]:
    whether the variable the option sets has left its initial value. *)
Definition option_is_set (o : string) (g : globals) : bool :=
  if String.eqb o "-inum" then negb (inode_target g =? 0)
  else if String.eqb o "-name" then negb (String.eqb (name_target g) "")
  else if String.eqb o "-size" then negb (bool_decide (size_mode g = NONE))
  else if String.eqb o "-nlinks" then negb (nlinks_target g =? 0)
  else if String.eqb o "-exec" then negb (String.eqb (exec_target g) "")
  else false.

(** ** Sample trees *)

(** The world when [main] calls [visit] on "/tmp": descriptor 3 is the
    directory. *)
Definition at_root : world :=
  log (SysOpen "/tmp" O_RDONLY_DIRECTORY 3) (fd_open 3 world0).

Definition regular (ino : Z) (name : string) (size nlink : Z) : dentry :=
  ({| d_ino := ino; d_type := DT_REG; d_name := name |},
   Node (StatOk {| st_size := size; st_nlink := nlink |})
        (DirFails "Not a directory")).

Definition directory (ino : Z) (name : string) (s : dirstream) : dentry :=
  ({| d_ino := ino; d_type := DT_DIR; d_name := name |},
   Node (StatOk {| st_size := 4096; st_nlink := 2 |}) (DirOpens s)).

Definition locked_directory (ino : Z) (name : string) : dentry :=
  ({| d_ino := ino; d_type := DT_DIR; d_name := name |},
   Node (OpenFails "Permission denied") (DirFails "Permission denied")).

Definition symlink (ino : Z) (name : string) (target : node) : dentry :=
  ({| d_ino := ino; d_type := DT_LNK; d_name := name |}, target).

(** A directory with one file [a] of 100 bytes. *)
Definition one_file : dirstream :=
  Stream [ReadOk [directory 2 "." (Stream []); directory 1 ".." (Stream []);
                  regular 7 "a" 100 1]].

(** [a] (100 bytes), [sub/b] (99 bytes), [sub/c] (101 bytes, 2 links), a
    directory that cannot be opened, and [z] (5 bytes), read in two
    batches. *)
Definition sample_tree : dirstream :=
  Stream [ReadOk [directory 2 "." one_file; directory 1 ".." one_file;
                  regular 7 "a" 100 1;
                  directory 8 "sub"
                    (Stream [ReadOk [regular 9 "b" 99 1; regular 10 "c" 101 2]])];
          ReadOk [locked_directory 11 "locked"; regular 12 "z" 5 1]].

(** A directory [sub] whose second read fails, between the files [a] and
    [z]; [sub/b] is delivered before the failure, [sub/c] would come after
    it. *)
Definition failing_reads : list (getdents dentry) :=
  [ReadOk [regular 9 "b" 99 1]; ReadFails "Input/output error";
   ReadOk [regular 10 "c" 101 2]].

Definition failing_batch : list dentry :=
  [regular 7 "a" 100 1; directory 8 "sub" (Stream failing_reads);
   regular 12 "z" 5 1].

(** ** Counting and classifying for the further properties *)

(** The status fetches of a walk that open the file: one per scanned
    regular file that passes the tests on inode and name and opens, when
    the criteria ask for the status. *)
Definition fetched_entry (rec : dirstream -> nat) (g : globals) (e : dentry) : nat :=
  let '(entry, nd) := e in
  if is_dot (d_name entry) then 0%nat
  else if d_type entry =? DT_REG then
    if cheap_checks g entry && needs_stat g && opens (as_file nd) then 1%nat
    else 0%nat
  else if d_type entry =? DT_DIR then
    match as_dir nd with
    | DirOpens sub => rec sub
    | DirFails _ => 0%nat
    end
  else 0%nat.

Fixpoint status_fetches (g : globals) (s : dirstream) {struct s} : nat :=
  match s with
  | Stream rs =>
      (fix loop (rs : list (getdents dentry)) : nat :=
         match rs with
         | ReadOk (e :: batch) :: rs' =>
             (list_sum (map (fetched_entry (status_fetches g) g) (e :: batch))
              + loop rs')%nat
         | _ => 0%nat
         end) rs
  end.

Definition entry_fetches (g : globals) (e : dentry) : nat :=
  fetched_entry (status_fetches g) g e.

(** The descriptors of a walk are counted as [status_fetches] says,
    wherever it starts, and none that was open is closed. *)
Definition fds_as_counted (g : globals) (sub : dirstream) : Prop :=
  forall fd p w,
    open_fds w ⊆ open_fds (visit g sub fd p w) /\
    size (open_fds (visit g sub fd p w)) =
      (size (open_fds w) + status_fetches g sub)%nat.

(** The calls of the walker proper: reading a directory, opening a
    subdirectory, closing. *)
Definition walk_call (c : syscall) : bool :=
  match c with
  | SysGetdents64 _ _ => true
  | SysOpenat _ _ O_RDONLY_DIRECTORY _ => true
  | SysClose _ => true
  | _ => false
  end.

(** A walk that has nothing to report: every read up to the end of each
    directory succeeds, every subdirectory opens, and every status the
    filter asks for is delivered. *)
Definition quiet_entry (rec : dirstream -> bool) (g : globals) (e : dentry) : bool :=
  let '(entry, nd) := e in
  if is_dot (d_name entry) then true
  else if d_type entry =? DT_REG then
    negb (cheap_checks g entry && needs_stat g)
    || match as_file nd with StatOk _ => true | _ => false end
  else if d_type entry =? DT_DIR then
    match as_dir nd with
    | DirOpens sub => rec sub
    | DirFails _ => false
    end
  else true.

Fixpoint quiet (g : globals) (s : dirstream) {struct s} : bool :=
  match s with
  | Stream rs =>
      (fix loop (rs : list (getdents dentry)) : bool :=
         match rs with
         | [] => true
         | ReadFails _ :: _ => false
         | ReadOk [] :: _ => true
         | ReadOk batch :: rs' =>
             forallb (quiet_entry (quiet g) g) batch && loop rs'
         end) rs
  end.

Definition is_execv (c : syscall) : bool :=
  match c with
  | SysExecv _ _ _ => true
  | _ => false
  end.

(** The lines [main] prints for the ResultSet. *)
Definition lines (l : list string) : string :=
  fold_right (fun result rest => result +:+ endl +:+ rest) "" l.

(** Options with their values, as they stand on a command line, and the
    globals after [set_args] has taken them in turn; [None] when one of
    them is refused. *)
Fixpoint flatten_options (ps : list (string * string)) : list string :=
  match ps with
  | [] => []
  | (o, v) :: ps' => o :: v :: flatten_options ps'
  end.

Fixpoint apply_options (ps : list (string * string)) (g : globals) : option globals :=
  match ps with
  | [] => Some g
  | (o, v) :: ps' =>
      match set_option o v g world0 with
      | inl (g', _) => apply_options ps' g'
      | inr _ => None
      end
  end.

Definition is_option (p : string * string) : Prop :=
  Ascii.eqb (first_char (fst p)) "-" = true.

(** The values of the numeric globals fit the types [set_args] gets them
    in: [unsigned long] for the inode number and the link count, [int] for
    the size. *)
Definition in_range (g : globals) : Prop :=
  0 <= inode_target g <= ULONG_MAX /\
  INT_MIN <= size_target g <= INT_MAX /\
  0 <= nlinks_target g <= ULONG_MAX.

(** * Proofs *)

(** ** The descriptor table *)

Lemma lowest_free_from_spec fuel : forall (n : Z) (X : gset Z),
  (size (filter (fun x : Z => (n <= x)%Z) X) <= fuel)%nat ->
  (lowest_free_from fuel n X ∉ X) /\ (n <= lowest_free_from fuel n X).
Proof.
  induction fuel as [|fuel IH]; intros n X Hsz; simpl.
  - split; [|lia].
    intros Hn.
    assert (Hin : n ∈ filter (fun x => n <= x) X) by (apply elem_of_filter; split; [lia|done]).
    assert (Hz : size (filter (fun x => n <= x) X) = 0%nat) by lia.
    apply size_empty_iff in Hz. rewrite Hz in Hin. set_solver.
  - destruct (decide (n ∈ X)) as [Hn|Hn]; [|split; [done|lia]].
    destruct (IH (n + 1) X) as [Hfree Hle]; [|split; [done|lia]].
    assert (Hsub : filter (fun x => n + 1 <= x) X ⊆ filter (fun x => n <= x) X ∖ {[n]}).
    { intros x [Hx1 Hx2]%elem_of_filter. apply elem_of_difference. split.
      - apply elem_of_filter. split; [lia|done].
      - rewrite elem_of_singleton. lia. }
    apply subseteq_size in Hsub.
    rewrite size_difference in Hsub.
    + rewrite size_singleton in Hsub. lia.
    + intros x ->%elem_of_singleton. apply elem_of_filter. split; [lia|done].
Qed.

Lemma lowest_free_fresh (X : gset Z) : lowest_free X ∉ X.
Proof.
  apply lowest_free_from_spec. apply subseteq_size.
  intros x [_ Hx]%elem_of_filter. exact Hx.
Qed.

Lemma lowest_free_nonneg (X : gset Z) : 0 <= lowest_free X.
Proof.
  apply lowest_free_from_spec. apply subseteq_size.
  intros x [_ Hx]%elem_of_filter. exact Hx.
Qed.

Lemma lowest_free_from_lowest fuel : forall (n m : Z) (X : gset Z),
  n <= m < lowest_free_from fuel n X -> m ∈ X.
Proof.
  induction fuel as [|fuel IH]; intros n m X Hm; simpl in Hm; [lia|].
  destruct (decide (n ∈ X)) as [Hn|Hn]; [|lia].
  destruct (decide (m = n)) as [->|Hne]; [exact Hn|].
  apply (IH (n + 1)). lia.
Qed.

(** No descriptor below the one returned is free. *)
Lemma lowest_free_lowest (X : gset Z) (m : Z) :
  0 <= m < lowest_free X -> m ∈ X.
Proof. apply lowest_free_from_lowest. Qed.

Lemma lowest_free_is_fd (X : gset Z) : (lowest_free X =? -1) = false.
Proof. pose proof (lowest_free_nonneg X). apply Z.eqb_neq. lia. Qed.

(** ** The entry filter *)

(** The two tests [matches] makes before it looks at the criteria that
    need the file status. *)
Lemma matches_cheap_checks g entry a dir_fd dir_path w :
  cheap_checks g entry = false ->
  matches g entry a dir_fd dir_path w = (false, w).
Proof.
  unfold cheap_checks, matches. intros H.
  destruct (negb (inode_target g =? 0) && negb (d_ino entry =? inode_target g));
    [reflexivity|].
  destruct (negb (String.eqb (name_target g) "")
            && negb (String.eqb (d_name entry) (name_target g)));
    [reflexivity|discriminate H].
Qed.

Lemma cheap_checks_spec g entry :
  cheap_checks g entry = true <-> inode_ok g entry /\ name_ok g entry.
Proof.
  unfold cheap_checks, inode_ok, name_ok.
  destruct (Z.eqb_spec (inode_target g) 0) as [Hi|Hi];
  destruct (Z.eqb_spec (d_ino entry) (inode_target g)) as [Hd|Hd];
  destruct (String.eqb_spec (name_target g) "") as [Hn|Hn];
  destruct (String.eqb_spec (d_name entry) (name_target g)) as [He|He];
  simpl; intuition (try discriminate; try congruence).
Qed.

Lemma size_check_spec g stats : size_check g stats = true <-> size_ok g stats.
Proof.
  unfold size_check, size_ok.
  destruct (size_mode g); [tauto| | |].
  - destruct (Z.ltb_spec (size_target g) (st_size stats)); simpl;
      split; intros; (lia || discriminate || reflexivity).
  - destruct (Z.eqb_spec (st_size stats) (size_target g)); simpl;
      split; intros; (lia || discriminate || reflexivity).
  - destruct (Z.ltb_spec (st_size stats) (size_target g)); simpl;
      split; intros; (lia || discriminate || reflexivity).
Qed.

Lemma nlinks_check_spec g stats : nlinks_check g stats = true <-> nlinks_ok g stats.
Proof.
  unfold nlinks_check, nlinks_ok.
  destruct (Z.eqb_spec (nlinks_target g) 0);
  destruct (Z.eqb_spec (nlinks_target g) (st_nlink stats)); simpl;
    intuition (try discriminate; try congruence).
Qed.

(** When the cheap tests pass and the status is needed, [matches] opens
    the file; this is the whole of what it does then. *)
Lemma matches_with_stat g entry a dir_fd dir_path w :
  cheap_checks g entry = true -> needs_stat g = true ->
  matches g entry a dir_fd dir_path w =
  match a with
  | OpenFails err =>
      (false,
       print_error err
         (print ("Error opening file at " +:+ dir_path +:+ d_name entry +:+ endl)
            (log (SysOpenat dir_fd (d_name entry) O_RDONLY (-1)) w)))
  | StatFails err =>
      let fd := lowest_free (open_fds w) in
      (false,
       print_error err
         (print ("Error reading stats of file at " +:+ dir_path +:+ d_name entry +:+ endl)
            (log (SysFstat fd (-1))
               (log (SysOpenat dir_fd (d_name entry) O_RDONLY fd) (fd_open fd w)))))
  | StatOk stats =>
      let fd := lowest_free (open_fds w) in
      (size_check g stats && nlinks_check g stats,
       log (SysFstat fd 0)
         (log (SysOpenat dir_fd (d_name entry) O_RDONLY fd) (fd_open fd w)))
  end.
Proof.
  unfold cheap_checks, needs_stat, matches. intros Hc Hs.
  destruct (negb (inode_target g =? 0) && negb (d_ino entry =? inode_target g));
    [discriminate Hc|].
  destruct (negb (String.eqb (name_target g) "")
            && negb (String.eqb (d_name entry) (name_target g)));
    [discriminate Hc|].
  destruct (bool_decide (size_mode g = NONE) && (nlinks_target g =? 0));
    [discriminate Hs|].
  destruct a as [err|err|stats]; simpl; [reflexivity| |].
  - rewrite lowest_free_is_fd. reflexivity.
  - rewrite lowest_free_is_fd.
    destruct (size_check g stats), (nlinks_check g stats); reflexivity.
Qed.

Lemma matches_without_stat g entry a dir_fd dir_path w :
  needs_stat g = false ->
  matches g entry a dir_fd dir_path w = (cheap_checks g entry, w).
Proof.
  unfold cheap_checks, needs_stat, matches. intros Hs.
  destruct (negb (inode_target g =? 0) && negb (d_ino entry =? inode_target g));
    [reflexivity|].
  destruct (negb (String.eqb (name_target g) "")
            && negb (String.eqb (d_name entry) (name_target g)));
    [reflexivity|].
  destruct (bool_decide (size_mode g = NONE) && (nlinks_target g =? 0));
    [reflexivity|discriminate Hs].
Qed.

(** The decision does not depend on where [matches] is called. *)
Lemma matches_decision g entry a dir_fd dir_path w :
  fst (matches g entry a dir_fd dir_path w) = accepts g entry a.
Proof.
  unfold accepts.
  destruct (cheap_checks g entry) eqn:Hc.
  - destruct (needs_stat g) eqn:Hs.
    + rewrite !matches_with_stat by assumption. destruct a; reflexivity.
    + rewrite !matches_without_stat by assumption. reflexivity.
  - rewrite !matches_cheap_checks by assumption. reflexivity.
Qed.

Lemma accepts_spec g entry a :
  accepts g entry a = true <->
  inode_ok g entry /\ name_ok g entry /\
  (needs_stat g = true ->
   exists stats, a = StatOk stats /\ size_ok g stats /\ nlinks_ok g stats).
Proof.
  unfold accepts.
  destruct (cheap_checks g entry) eqn:Hc.
  - pose proof (proj1 (cheap_checks_spec g entry) Hc) as [Hi Hn].
    destruct (needs_stat g) eqn:Hs.
    + rewrite matches_with_stat by assumption.
      destruct a as [err|err|stats]; simpl.
      * split; [discriminate|]. intros (_ & _ & H).
        destruct (H eq_refl) as (? & ? & _); discriminate.
      * split; [discriminate|]. intros (_ & _ & H).
        destruct (H eq_refl) as (? & ? & _); discriminate.
      * rewrite andb_true_iff, size_check_spec, nlinks_check_spec.
        split.
        -- intros [? ?]. repeat split; try assumption. intros _.
           exists stats. repeat split; assumption.
        -- intros (_ & _ & H). destruct (H eq_refl) as (st & Heq & ? & ?).
           injection Heq as <-. split; assumption.
    + rewrite matches_without_stat by assumption. rewrite Hc. simpl.
      split; [|reflexivity]. intros _. repeat split; try assumption. discriminate.
  - rewrite matches_cheap_checks by assumption. simpl.
    split; [discriminate|]. intros (Hi & Hn & _).
    rewrite (proj2 (cheap_checks_spec g entry)) in Hc; [discriminate|tauto].
Qed.

Lemma matches_results g entry a dir_fd dir_path w :
  results (snd (matches g entry a dir_fd dir_path w)) = results w.
Proof.
  destruct (cheap_checks g entry) eqn:Hc.
  - destruct (needs_stat g) eqn:Hs.
    + rewrite matches_with_stat by assumption. destruct a; reflexivity.
    + rewrite matches_without_stat by assumption. reflexivity.
  - rewrite matches_cheap_checks by assumption. reflexivity.
Qed.

(** C1. When the file status was fetched and the other configured tests
    pass, [matches] decides on the size alone, with both boundaries
    included: in LESS mode it accepts exactly the sizes up to the
    threshold, in EQUAL mode exactly the threshold, in GREATER mode exactly
    the sizes from the threshold on. *)
Theorem matches_size_boundaries g entry stats dir_fd dir_path w :
  inode_ok g entry -> name_ok g entry -> nlinks_ok g stats ->
  let r := fst (matches g entry (StatOk stats) dir_fd dir_path w) in
  (size_mode g = LESS -> (r = true <-> st_size stats <= size_target g)) /\
  (size_mode g = EQUAL -> (r = true <-> st_size stats = size_target g)) /\
  (size_mode g = GREATER -> (r = true <-> st_size stats >= size_target g)).
Proof.
  intros Hi Hn Hl r.
  assert (Hr : r = true <-> size_ok g stats).
  { unfold r. rewrite matches_decision, accepts_spec. split.
    - intros (_ & _ & H). unfold size_ok.
      destruct (size_mode g) eqn:Hm; [exact I| | |];
        (destruct H as (st & Heq & Hs & _);
         [unfold needs_stat; rewrite Hm; reflexivity|];
         injection Heq as <-; unfold size_ok in Hs; rewrite Hm in Hs; exact Hs).
    - intros Hs. repeat split; try assumption. intros _.
      exists stats. repeat split; assumption. }
  unfold size_ok in Hr.
  split; [|split]; intros Hm; rewrite Hm in Hr; exact Hr.
Qed.

Lemma matches_size_boundaries_witness :
  let g := with_size_target 100 (with_size_mode LESS globals0) in
  let entry := {| d_ino := 7; d_type := DT_REG; d_name := "a" |} in
  let stats := {| st_size := 100; st_nlink := 1 |} in
  let r := fst (matches g entry (StatOk stats) 3 "/tmp/" at_root) in
  (inode_ok g entry /\ name_ok g entry /\ nlinks_ok g stats) /\
  (size_mode g = LESS -> (r = true <-> st_size stats <= size_target g)) /\
  (size_mode g = EQUAL -> (r = true <-> st_size stats = size_target g)) /\
  (size_mode g = GREATER -> (r = true <-> st_size stats >= size_target g)).
Proof.
  intros g entry stats r.
  assert (Hi : inode_ok g entry) by (left; reflexivity).
  assert (Hn : name_ok g entry) by (left; reflexivity).
  assert (Hl : nlinks_ok g stats) by (left; reflexivity).
  split; [repeat split; assumption|].
  exact (matches_size_boundaries g entry stats 3 "/tmp/" at_root Hi Hn Hl).
Defined.

(** The boundary scenario of the spec: sizes 99, 100 and 101 against the
    threshold 100 in the three modes. *)
Example size_filter_scenario :
  let decide_size mode size :=
    fst (matches (with_size_target 100 (with_size_mode mode globals0))
           {| d_ino := 7; d_type := DT_REG; d_name := "a" |}
           (StatOk {| st_size := size; st_nlink := 1 |}) 3 "/tmp/" at_root) in
  map (decide_size EQUAL) [99; 100; 101] = [false; true; false] /\
  map (decide_size LESS) [99; 100; 101] = [true; true; false] /\
  map (decide_size GREATER) [99; 100; 101] = [false; true; true].
Proof. vm_compute. repeat split. Qed.

(** C2 (does not hold of the code). [matches] has no [close]: whenever the
    file opens, the descriptor it got is still open when [matches]
    returns, whatever the outcome, and the calls it issued are the
    [openat] and the [fstat], nothing else. *)
Theorem matches_leaves_descriptor_open g entry a dir_fd dir_path w :
  cheap_checks g entry = true -> needs_stat g = true -> opens a = true ->
  let fd := lowest_free (open_fds w) in
  let w' := snd (matches g entry a dir_fd dir_path w) in
  (fd ∉ open_fds w) /\
  open_fds w' = {[fd]} ∪ open_fds w /\
  open_fds w' <> open_fds w /\
  calls w' = (calls w ++ [SysOpenat dir_fd (d_name entry) O_RDONLY fd;
                          SysFstat fd (match a with StatOk _ => 0 | _ => -1 end)])%list.
Proof.
  intros Hc Hs Ho fd w'.
  pose proof (lowest_free_fresh (open_fds w)) as Hfresh. fold fd in Hfresh.
  assert (Hfds : open_fds w' = {[fd]} ∪ open_fds w).
  { unfold w'. rewrite matches_with_stat by assumption.
    destruct a; [discriminate Ho|reflexivity|reflexivity]. }
  split; [exact Hfresh|]. split; [exact Hfds|]. split.
  - rewrite Hfds. intros Heq. apply Hfresh. rewrite <- Heq.
    apply elem_of_union_l, elem_of_singleton. reflexivity.
  - unfold w'. rewrite matches_with_stat by assumption.
    destruct a; [discriminate Ho| |]; simpl; rewrite <- app_assoc; reflexivity.
Qed.

Lemma matches_leaves_descriptor_open_witness :
  let g := with_size_target 100 (with_size_mode EQUAL globals0) in
  let entry := {| d_ino := 7; d_type := DT_REG; d_name := "a" |} in
  let a := StatOk {| st_size := 100; st_nlink := 1 |} in
  let w' := snd (matches g entry a 3 "/tmp/" at_root) in
  fst (matches g entry a 3 "/tmp/" at_root) = true /\
  (4 ∉ open_fds at_root) /\
  open_fds w' = {[4]} ∪ open_fds at_root /\
  open_fds w' <> open_fds at_root /\
  calls w' = [SysOpen "/tmp" O_RDONLY_DIRECTORY 3;
              SysOpenat 3 "a" O_RDONLY 4; SysFstat 4 0].
Proof.
  intros g entry a w'. split; [reflexivity|].
  exact (matches_leaves_descriptor_open g entry a 3 "/tmp/" at_root
           eq_refl eq_refl eq_refl).
Defined.

(** C6. With neither a size comparison nor a link count configured,
    [matches] returns the outcome of the inode and name tests and leaves
    the world as it found it: no descriptor is opened and no system call
    is made, whatever the kernel would have answered for the file. *)
Theorem matches_short_circuit g entry a dir_fd dir_path w :
  size_mode g = NONE -> nlinks_target g = 0 ->
  matches g entry a dir_fd dir_path w = (cheap_checks g entry, w) /\
  (cheap_checks g entry = true <-> inode_ok g entry /\ name_ok g entry).
Proof.
  intros Hm Hl. split; [|apply cheap_checks_spec].
  apply matches_without_stat. unfold needs_stat. rewrite Hm, Hl. reflexivity.
Qed.

Lemma matches_short_circuit_witness :
  let g := with_name_target "a" globals0 in
  let entry := {| d_ino := 7; d_type := DT_REG; d_name := "a" |} in
  (size_mode g = NONE /\ nlinks_target g = 0) /\
  matches g entry (OpenFails "Permission denied") 3 "/tmp/" at_root = (true, at_root) /\
  (cheap_checks g entry = true <-> inode_ok g entry /\ name_ok g entry).
Proof.
  intros g entry. split; [split; reflexivity|].
  exact (matches_short_circuit g entry (OpenFails "Permission denied") 3 "/tmp/"
           at_root eq_refl eq_refl).
Defined.

(** ** The tree walker *)

Lemma dirstream_nested_ind (P : dirstream -> Prop) :
  (forall rs, Forall (below_read P) rs -> P (Stream rs)) ->
  forall s, P s.
Proof.
  intros step.
  fix IH 1.
  intros [rs]. apply step.
  induction rs as [|r rs IHrs]; constructor; [|exact IHrs].
  destruct r as [err|batch]; simpl; [exact I|].
  induction batch as [|[e nd] batch IHb]; constructor; [|exact IHb].
  destruct nd as [f [err|sub]]; unfold below; simpl; [exact I|apply IH].
Qed.

Lemma visit_with_unfold filter rs dir_fd path w :
  visit_with filter (Stream rs) dir_fd path w = visit_reads filter dir_fd path rs w.
Proof.
  simpl. revert w.
  induction rs as [|r rs IH]; intros w; [reflexivity|].
  destruct r as [err|batch]; [reflexivity|].
  destruct batch as [|e batch]; [reflexivity|].
  simpl. rewrite IH. reflexivity.
Qed.

Lemma visit_batch_cons filter dir_fd path e batch w :
  visit_batch filter dir_fd path (e :: batch) w =
  visit_batch filter dir_fd path batch
    (scan_entry filter (visit_with filter) dir_fd path w e).
Proof. reflexivity. Qed.

Lemma visit_batch_app filter dir_fd path b1 b2 w :
  visit_batch filter dir_fd path (b1 ++ b2) w =
  visit_batch filter dir_fd path b2 (visit_batch filter dir_fd path b1 w).
Proof. unfold visit_batch. apply fold_left_app. Qed.

Lemma preorder_matches_unfold g rs path :
  preorder_matches g (Stream rs) path =
  flat_map (entry_matches g path) (entries_read rs).
Proof.
  simpl. induction rs as [|r rs IH]; [reflexivity|].
  destruct r as [err|batch]; [reflexivity|].
  destruct batch as [|e batch]; [reflexivity|].
  rewrite IH. change (entries_read (ReadOk (e :: batch) :: rs))
    with ((e :: batch) ++ entries_read rs)%list.
  rewrite flat_map_app. reflexivity.
Qed.

(** *** What one record does *)

Lemma scan_entry_dot filter rec dir_fd path w entry nd :
  is_dot (d_name entry) = true ->
  scan_entry filter rec dir_fd path w (entry, nd) = w.
Proof. intros H. unfold scan_entry. rewrite H. reflexivity. Qed.

Lemma scan_entry_regular filter rec dir_fd path w entry nd :
  is_dot (d_name entry) = false -> d_type entry = DT_REG ->
  scan_entry filter rec dir_fd path w (entry, nd) =
  let r := filter entry (as_file nd) dir_fd path w in
  if fst r then push_back (path +:+ d_name entry) (snd r) else snd r.
Proof.
  intros Hd Ht. unfold scan_entry. rewrite Hd, Ht. simpl.
  destruct (filter entry (as_file nd) dir_fd path w) as [[|] w1]; reflexivity.
Qed.

Lemma scan_entry_directory filter rec dir_fd path w entry nd :
  is_dot (d_name entry) = false -> d_type entry = DT_DIR ->
  scan_entry filter rec dir_fd path w (entry, nd) =
  match as_dir nd with
  | DirFails err =>
      print_error err
        (print ("Error reading contents of " +:+ path +:+ d_name entry +:+ "/" +:+ endl)
           (log (SysOpenat dir_fd (d_name entry) O_RDONLY_DIRECTORY (-1)) w))
  | DirOpens sub =>
      let fd := lowest_free (open_fds w) in
      close fd
        (rec sub fd (path +:+ d_name entry +:+ "/")
           (log (SysOpenat dir_fd (d_name entry) O_RDONLY_DIRECTORY fd) (fd_open fd w)))
  end.
Proof.
  intros Hd Ht. unfold scan_entry. rewrite Hd, Ht. simpl.
  destruct (as_dir nd); reflexivity.
Qed.

Lemma scan_entry_other filter rec dir_fd path w entry nd :
  d_type entry <> DT_REG -> d_type entry <> DT_DIR ->
  scan_entry filter rec dir_fd path w (entry, nd) = w.
Proof.
  intros Hr Hd. unfold scan_entry.
  destruct (is_dot (d_name entry)); [reflexivity|].
  apply Z.eqb_neq in Hr, Hd. rewrite Hr, Hd. reflexivity.
Qed.

(** *** The ResultSet of a walk *)

Lemma scan_entry_results g dir_fd path w e :
  below (results_as_spec g) e ->
  results (scan_entry (matches g) (visit g) dir_fd path w e) =
  (results w ++ entry_matches g path e)%list.
Proof.
  destruct e as [entry nd]. unfold below. cbn [snd]. intros Hsub.
  unfold entry_matches, matched_entry.
  destruct (is_dot (d_name entry)) eqn:Hdot.
  { rewrite scan_entry_dot by assumption. symmetry. apply app_nil_r. }
  destruct (Z.eqb_spec (d_type entry) DT_REG) as [Hreg|Hreg].
  - rewrite scan_entry_regular by assumption. simpl.
    rewrite matches_decision.
    destruct (accepts g entry (as_file nd)); simpl.
    + rewrite matches_results. reflexivity.
    + rewrite matches_results, Hreg. simpl. symmetry. apply app_nil_r.
  - cbn [andb]. destruct (Z.eqb_spec (d_type entry) DT_DIR) as [Hdir|Hdir].
    + rewrite scan_entry_directory by assumption.
      destruct (as_dir nd) as [err|sub]; simpl.
      * symmetry. apply app_nil_r.
      * unfold results_as_spec in Hsub. rewrite Hsub. reflexivity.
    + rewrite scan_entry_other by assumption. symmetry. apply app_nil_r.
Qed.

Lemma visit_batch_results g dir_fd path batch : forall w,
  Forall (below (results_as_spec g)) batch ->
  results (visit_batch (matches g) dir_fd path batch w) =
  (results w ++ flat_map (entry_matches g path) batch)%list.
Proof.
  induction batch as [|e batch IH]; intros w Hall.
  - simpl. symmetry. apply app_nil_r.
  - inversion Hall as [|? ? He Hrest]; subst.
    rewrite visit_batch_cons, IH by assumption.
    fold (visit g). rewrite scan_entry_results by assumption.
    simpl. rewrite <- app_assoc. reflexivity.
Qed.

Lemma visit_reads_results g dir_fd path rs : forall w,
  Forall (below_read (results_as_spec g)) rs ->
  results (visit_reads (matches g) dir_fd path rs w) =
  (results w ++ flat_map (entry_matches g path) (entries_read rs))%list.
Proof.
  induction rs as [|r rs IH]; intros w Hall.
  - simpl. symmetry. apply app_nil_r.
  - inversion Hall as [|? ? Hr Hrest]; subst.
    destruct r as [err|batch]; [simpl; symmetry; apply app_nil_r|].
    destruct batch as [|e batch]; [simpl; symmetry; apply app_nil_r|].
    change (visit_reads (matches g) dir_fd path (ReadOk (e :: batch) :: rs) w)
      with (visit_reads (matches g) dir_fd path rs
              (visit_batch (matches g) dir_fd path (e :: batch)
                 (log (SysGetdents64 dir_fd (Z.of_nat (length (e :: batch)))) w))).
    rewrite IH by assumption.
    rewrite visit_batch_results by exact Hr.
    change (entries_read (ReadOk (e :: batch) :: rs))
      with ((e :: batch) ++ entries_read rs)%list.
    rewrite flat_map_app, <- app_assoc. reflexivity.
Qed.

Lemma visit_results g s : results_as_spec g s.
Proof.
  induction s as [rs Hall] using dirstream_nested_ind.
  intros fd p w. unfold visit.
  rewrite visit_with_unfold, preorder_matches_unfold.
  apply visit_reads_results. exact Hall.
Qed.

Lemma below_results_as_spec g e : below (results_as_spec g) e.
Proof. unfold below. destruct (as_dir (snd e)); [exact I|apply visit_results]. Qed.

Lemma visit_batch_appends g dir_fd path batch w :
  results (visit_batch (matches g) dir_fd path batch w) =
  (results w ++ flat_map (entry_matches g path) batch)%list.
Proof.
  apply visit_batch_results. apply Forall_forall. intros e _.
  apply below_results_as_spec.
Qed.

Lemma visit_reads_prefix_appends g dir_fd path batches : forall w,
  results (visit_reads_prefix (matches g) dir_fd path batches w) =
  (results w ++ flat_map (entry_matches g path) (concat batches))%list.
Proof.
  induction batches as [|b bs IH]; intros w; simpl.
  - symmetry. apply app_nil_r.
  - rewrite IH, visit_batch_appends, flat_map_app, <- app_assoc. reflexivity.
Qed.

Lemma visit_reads_prefix_spec filter dir_fd path batches rs : forall w,
  Forall (fun b => b <> []) batches ->
  visit_reads filter dir_fd path (map ReadOk batches ++ rs) w =
  visit_reads filter dir_fd path rs (visit_reads_prefix filter dir_fd path batches w).
Proof.
  induction batches as [|b bs IH]; intros w Hne; [reflexivity|].
  inversion Hne as [|? ? Hb Hbs]; subst.
  destruct b as [|e b]; [congruence|].
  simpl. rewrite IH by assumption. reflexivity.
Qed.

(** C8. A record named "." or ".." leaves the world as it is, whatever its
    type, whatever the kernel would answer for it, whatever the filter and
    the recursive call would do if they were called: it is neither handed
    to the filter nor opened nor recursed into, and it contributes nothing
    to the ResultSet. A buffer is scanned as if it held no such record. *)
Theorem dot_entries_are_skipped entry nd :
  is_dot (d_name entry) = true ->
  (forall filter rec dir_fd path w,
      scan_entry filter rec dir_fd path w (entry, nd) = w) /\
  (forall g path, entry_matches g path (entry, nd) = []) /\
  (forall filter dir_fd path before after w,
      visit_batch filter dir_fd path (before ++ (entry, nd) :: after) w =
      visit_batch filter dir_fd path (before ++ after) w).
Proof.
  intros Hdot. split; [|split].
  - intros. apply scan_entry_dot. exact Hdot.
  - intros. unfold entry_matches, matched_entry. rewrite Hdot. reflexivity.
  - intros. rewrite !visit_batch_app, visit_batch_cons.
    rewrite scan_entry_dot by exact Hdot. reflexivity.
Qed.

Lemma dot_entries_are_skipped_witness :
  let entry := {| d_ino := 2; d_type := DT_DIR; d_name := ".." |} in
  let nd := Node (StatOk {| st_size := 4096; st_nlink := 2 |}) (DirOpens one_file) in
  is_dot (d_name entry) = true /\
  (forall filter rec dir_fd path w,
      scan_entry filter rec dir_fd path w (entry, nd) = w) /\
  (forall g path, entry_matches g path (entry, nd) = []) /\
  (forall filter dir_fd path before after w,
      visit_batch filter dir_fd path (before ++ (entry, nd) :: after) w =
      visit_batch filter dir_fd path (before ++ after) w).
Proof.
  intros entry nd. split; [reflexivity|].
  exact (dot_entries_are_skipped entry nd eq_refl).
Defined.

(** C7. A walk appends the pre-order list of the spec to the ResultSet:
    the contributions of the records in the order the reads deliver them;
    where a record is a subdirectory that opens, all the matches of its
    subtree stand between those of the records before it and those of the
    records after it; and in the scan of a buffer the walk of the
    subdirectory is over, and its descriptor closed, before the records
    after it are looked at. *)
Theorem results_in_preorder g rs dir_fd path w before entry nd sub after :
  entries_read rs = (before ++ (entry, nd) :: after)%list ->
  is_dot (d_name entry) = false -> d_type entry = DT_DIR ->
  as_dir nd = DirOpens sub ->
  results (visit g (Stream rs) dir_fd path w) =
    (results w ++ preorder_matches g (Stream rs) path)%list /\
  preorder_matches g (Stream rs) path =
    flat_map (entry_matches g path) (entries_read rs) /\
  preorder_matches g (Stream rs) path =
    (flat_map (entry_matches g path) before
     ++ preorder_matches g sub (path +:+ d_name entry +:+ "/")
     ++ flat_map (entry_matches g path) after)%list /\
  (forall fd w',
      results (visit g sub fd (path +:+ d_name entry +:+ "/") w') =
      (results w' ++ preorder_matches g sub (path +:+ d_name entry +:+ "/"))%list) /\
  (forall b1 b2 w0,
      let w1 := visit_batch (matches g) dir_fd path b1 w0 in
      let fd := lowest_free (open_fds w1) in
      visit_batch (matches g) dir_fd path (b1 ++ (entry, nd) :: b2) w0 =
      visit_batch (matches g) dir_fd path b2
        (close fd
           (visit g sub fd (path +:+ d_name entry +:+ "/")
              (log (SysOpenat dir_fd (d_name entry) O_RDONLY_DIRECTORY fd)
                 (fd_open fd w1))))).
Proof.
  intros Hread Hdot Hdir Hopen. split; [apply visit_results|].
  split; [apply preorder_matches_unfold|]. split; [|split].
  - assert (Hsub : entry_matches g path (entry, nd) =
                    preorder_matches g sub (path +:+ d_name entry +:+ "/")).
    { unfold entry_matches, matched_entry. rewrite Hdot, Hdir, Hopen.
      reflexivity. }
    rewrite preorder_matches_unfold, Hread, flat_map_app. cbn [flat_map].
    rewrite Hsub. reflexivity.
  - intros. apply visit_results.
  - intros b1 b2 w0 w1 fd.
    rewrite visit_batch_app, visit_batch_cons.
    rewrite scan_entry_directory by assumption. rewrite Hopen. reflexivity.
Qed.

Lemma results_in_preorder_witness :
  results (visit globals0 sample_tree 3 "/tmp/" at_root) =
    ["/tmp/a"; "/tmp/sub/b"; "/tmp/sub/c"; "/tmp/z"] /\
  preorder_matches globals0 sample_tree "/tmp/" =
    (["/tmp/a"] ++ ["/tmp/sub/b"; "/tmp/sub/c"] ++ ["/tmp/z"])%list.
Proof.
  pose proof (results_in_preorder globals0 (reads sample_tree) 3 "/tmp/" at_root
    [directory 2 "." one_file; directory 1 ".." one_file; regular 7 "a" 100 1]
    {| d_ino := 8; d_type := DT_DIR; d_name := "sub" |}
    (Node (StatOk {| st_size := 4096; st_nlink := 2 |})
       (DirOpens (Stream [ReadOk [regular 9 "b" 99 1; regular 10 "c" 101 2]])))
    (Stream [ReadOk [regular 9 "b" 99 1; regular 10 "c" 101 2]])
    [locked_directory 11 "locked"; regular 12 "z" 5 1]
    eq_refl eq_refl eq_refl eq_refl) as (H1 & _ & H2 & _).
  split; [exact H1|exact H2].
Defined.

Lemma append_assoc (a b c : string) : (a +:+ b) +:+ c = a +:+ (b +:+ c).
Proof.
  induction a as [|x a IH]; [reflexivity|].
  change (String x ((a +:+ b) +:+ c) = String x (a +:+ (b +:+ c))).
  rewrite IH. reflexivity.
Qed.

Lemma entries_read_prefix batches err rest :
  Forall (fun b : list dentry => b <> []) batches ->
  entries_read (map ReadOk batches ++ ReadFails err :: rest) = concat batches.
Proof.
  induction batches as [|b bs IH]; intros Hne; [reflexivity|].
  inversion Hne as [|? ? Hb Hbs]; subst.
  destruct b as [|e b]; [congruence|].
  simpl. rewrite IH by assumption. reflexivity.
Qed.

(** C5. In a buffer that holds a subdirectory between the records [before]
    and [after]:
    - when the subdirectory does not open, the failure is reported, the
      ResultSet and the open descriptors stay as they were, nothing is
      read from the subdirectory, and the scan goes on with [after];
    - when a read of the subdirectory fails after some buffers were
      delivered, the records of those buffers have been processed, the
      failure is reported, what the directory would have delivered next is
      never read, the descriptor is closed, and the scan of the parent
      goes on with [after].
    In both cases the matches of [before] and of [after] are in the
    ResultSet. A walk whose own read fails ends there, after the report,
    with the records of the earlier buffers processed. The report is, on
    standard output, the line "Error reading contents of" with the path of
    the subdirectory, then the line of the error. *)
Theorem traversal_errors_are_local g dir_fd path before entry nd after w :
  is_dot (d_name entry) = false -> d_type entry = DT_DIR ->
  let w1 := visit_batch (matches g) dir_fd path before w in
  let fd := lowest_free (open_fds w1) in
  let sub_path := path +:+ d_name entry +:+ "/" in
  let message :=
    "Error reading contents of " +:+ path +:+ d_name entry +:+ "/" +:+ endl in
  let whole := visit_batch (matches g) dir_fd path (before ++ (entry, nd) :: after) w in
  (forall err, as_dir nd = DirFails err ->
     let w2 := print_error err
                 (print message
                    (log (SysOpenat dir_fd (d_name entry) O_RDONLY_DIRECTORY (-1)) w1)) in
     whole = visit_batch (matches g) dir_fd path after w2 /\
     results w2 = results w1 /\ open_fds w2 = open_fds w1 /\
     cout w2 = (cout w1 +:+ message) +:+ (err +:+ endl) /\
     calls w2 =
       (calls w1 ++ [SysOpenat dir_fd (d_name entry) O_RDONLY_DIRECTORY (-1)])%list /\
     results whole =
       (results w ++ flat_map (entry_matches g path) before
        ++ flat_map (entry_matches g path) after)%list) /\
  (forall batches err rest,
     as_dir nd = DirOpens (Stream (map ReadOk batches ++ ReadFails err :: rest)) ->
     Forall (fun b => b <> []) batches ->
     let w2 := visit_reads_prefix (matches g) fd sub_path batches
                 (log (SysOpenat dir_fd (d_name entry) O_RDONLY_DIRECTORY fd)
                    (fd_open fd w1)) in
     let w3 := close fd
                 (print_error err (print message (log (SysGetdents64 fd (-1)) w2))) in
     whole = visit_batch (matches g) dir_fd path after w3 /\
     cout w3 = (cout w2 +:+ message) +:+ (err +:+ endl) /\
     results w3 = results w2 /\
     open_fds w3 = open_fds w2 ∖ {[fd]} /\
     results whole =
       (results w ++ flat_map (entry_matches g path) before
        ++ flat_map (entry_matches g sub_path) (concat batches)
        ++ flat_map (entry_matches g path) after)%list) /\
  (forall batches err rest dir_fd' path' w',
     Forall (fun b => b <> []) batches ->
     let w2 := visit_reads_prefix (matches g) dir_fd' path' batches w' in
     let w3 := visit g (Stream (map ReadOk batches ++ ReadFails err :: rest))
                 dir_fd' path' w' in
     w3 =
       print_error err
         (print ("Error reading contents of " +:+ path' +:+ endl)
            (log (SysGetdents64 dir_fd' (-1)) w2)) /\
     cout w3 =
       (cout w2 +:+ ("Error reading contents of " +:+ path' +:+ endl))
       +:+ (err +:+ endl) /\
     results w3 = results w2 /\ open_fds w3 = open_fds w2).
Proof.
  intros Hdot Hdir w1 fd sub_path message whole.
  assert (Hwhole : whole =
            visit_batch (matches g) dir_fd path after
              (scan_entry (matches g) (visit g) dir_fd path w1 (entry, nd))).
  { unfold whole. rewrite visit_batch_app, visit_batch_cons. reflexivity. }
  assert (Hres : results whole =
            (results w ++ flat_map (entry_matches g path) before
             ++ entry_matches g path (entry, nd)
             ++ flat_map (entry_matches g path) after)%list).
  { unfold whole. rewrite visit_batch_appends, flat_map_app. reflexivity. }
  rewrite scan_entry_directory in Hwhole by assumption.
  unfold entry_matches at 2 in Hres. unfold matched_entry in Hres.
  rewrite Hdot, Hdir in Hres. cbn [andb Z.eqb DT_DIR DT_REG Pos.eqb] in Hres.
  split; [|split].
  - intros err Hfail w2. rewrite Hfail in Hwhole, Hres.
    split; [exact Hwhole|]. split; [reflexivity|]. split; [reflexivity|].
    split; [reflexivity|]. split; [reflexivity|].
    exact Hres.
  - intros batches err rest Hopen Hne w2 w3. rewrite Hopen in Hwhole, Hres.
    split.
    + rewrite Hwhole. unfold visit.
      rewrite visit_with_unfold, visit_reads_prefix_spec by assumption.
      unfold w3, w2, message, fd, sub_path. cbn [visit_reads].
      rewrite !append_assoc. reflexivity.
    + split; [reflexivity|]. split; [reflexivity|]. split; [reflexivity|].
      rewrite Hres, preorder_matches_unfold, entries_read_prefix by assumption.
      reflexivity.
  - intros batches err rest dir_fd' path' w' Hne w2 w3.
    assert (Hw3 : w3 =
              print_error err
                (print ("Error reading contents of " +:+ path' +:+ endl)
                   (log (SysGetdents64 dir_fd' (-1)) w2))).
    { unfold w3, w2, visit.
      rewrite visit_with_unfold, visit_reads_prefix_spec by assumption.
      reflexivity. }
    split; [exact Hw3|]. rewrite Hw3. repeat split.
Qed.

Lemma traversal_errors_are_local_witness :
  let g := globals0 in
  let w1 := visit_batch (matches g) 3 "/tmp/" [regular 7 "a" 100 1] at_root in
  let fd := lowest_free (open_fds w1) in
  let w2 := visit_reads_prefix (matches g) fd "/tmp/sub/" [[regular 9 "b" 99 1]]
              (log (SysOpenat 3 "sub" O_RDONLY_DIRECTORY fd) (fd_open fd w1)) in
  let w3 := close fd
              (print_error "Input/output error"
                 (print ("Error reading contents of /tmp/sub/" +:+ endl)
                    (log (SysGetdents64 fd (-1)) w2))) in
  visit_batch (matches g) 3 "/tmp/" failing_batch at_root =
    visit_batch (matches g) 3 "/tmp/" [regular 12 "z" 5 1] w3 /\
  cout w3 = ("Error reading contents of /tmp/sub/" +:+ endl)
            +:+ ("Input/output error" +:+ endl) /\
  cout (visit_batch (matches g) 3 "/tmp/" failing_batch at_root) = cout w3 /\
  results (visit_batch (matches g) 3 "/tmp/" failing_batch at_root) =
    ["/tmp/a"; "/tmp/sub/b"; "/tmp/z"].
Proof.
  intros g w1 fd w2 w3.
  pose proof (traversal_errors_are_local g 3 "/tmp/" [regular 7 "a" 100 1]
    {| d_ino := 8; d_type := DT_DIR; d_name := "sub" |}
    (Node (StatOk {| st_size := 4096; st_nlink := 2 |})
       (DirOpens (Stream failing_reads)))
    [regular 12 "z" 5 1] at_root eq_refl eq_refl) as (_ & Hread & _).
  assert (Hne : Forall (fun b : list dentry => b <> []) [[regular 9 "b" 99 1]])
    by (constructor; [discriminate|constructor]).
  destruct (Hread [[regular 9 "b" 99 1]] "Input/output error"
              [ReadOk [regular 10 "c" 101 2]] eq_refl Hne)
    as (H1 & Hcout & _ & _ & H2).
  split; [exact H1|]. split; [exact Hcout|].
  split; [exact (f_equal cout H1)|exact H2].
Defined.

(** *** Paths are the prefix followed by a relative path *)

Lemma below_entries_read (P : dirstream -> Prop) rs :
  Forall (below_read P) rs -> Forall (below P) (entries_read rs).
Proof.
  induction rs as [|r rs IH]; intros Hall; [constructor|].
  inversion Hall as [|? ? Hr Hrest]; subst.
  destruct r as [err|batch]; [constructor|].
  destruct batch as [|e batch]; [constructor|].
  change (entries_read (ReadOk (e :: batch) :: rs))
    with ((e :: batch) ++ entries_read rs)%list.
  apply Forall_app. split; [exact Hr|apply IH; exact Hrest].
Qed.

Lemma entry_matches_prefix g path e :
  below (fun sub => forall p,
           preorder_matches g sub p = map (String.append p) (preorder_matches g sub "")) e ->
  entry_matches g path e = map (String.append path) (entry_matches g "" e).
Proof.
  destruct e as [entry nd]. unfold below. cbn [snd]. intros Hsub.
  unfold entry_matches, matched_entry.
  destruct (is_dot (d_name entry)); [reflexivity|].
  destruct ((d_type entry =? DT_REG) && accepts g entry (as_file nd));
    [reflexivity|].
  destruct (d_type entry =? DT_DIR); [|reflexivity].
  destruct (as_dir nd) as [err|sub]; [reflexivity|].
  rewrite (Hsub (path +:+ d_name entry +:+ "/")).
  rewrite (Hsub ("" +:+ d_name entry +:+ "/")).
  rewrite map_map. apply map_ext. intros x.
  change ("" +:+ d_name entry +:+ "/") with (d_name entry +:+ "/").
  apply append_assoc.
Qed.

Lemma preorder_matches_prefix g s : forall path,
  preorder_matches g s path = map (String.append path) (preorder_matches g s "").
Proof.
  induction s as [rs Hall] using dirstream_nested_ind.
  intros path. rewrite !preorder_matches_unfold.
  apply below_entries_read in Hall.
  induction Hall as [|e es He Hes IH]; [reflexivity|].
  cbn [flat_map]. rewrite map_app, IH, (entry_matches_prefix g path e He).
  reflexivity.
Qed.

(** *** Where the paths of the ResultSet come from *)

Lemma preorder_matches_walked g s : forall path p,
  In p (preorder_matches g s path) ->
  exists dir entry nd,
    walked path s dir (entry, nd) /\ p = dir +:+ d_name entry /\
    d_type entry = DT_REG /\ accepts g entry (as_file nd) = true.
Proof.
  induction s as [rs Hall] using dirstream_nested_ind.
  intros path p. rewrite preorder_matches_unfold.
  apply below_entries_read in Hall.
  rewrite List.in_flat_map. intros ([entry nd] & Hin & Hp).
  assert (Hbelow : below (fun sub => forall path p,
            In p (preorder_matches g sub path) ->
            exists dir entry nd,
              walked path sub dir (entry, nd) /\ p = dir +:+ d_name entry /\
              d_type entry = DT_REG /\ accepts g entry (as_file nd) = true)
            (entry, nd)).
  { rewrite List.Forall_forall in Hall. apply Hall. exact Hin. }
  unfold below in Hbelow. cbn [snd] in Hbelow.
  unfold entry_matches, matched_entry in Hp.
  destruct (is_dot (d_name entry)) eqn:Hdot; [destruct Hp|].
  destruct (Z.eqb_spec (d_type entry) DT_REG) as [Hreg|Hreg].
  - destruct (accepts g entry (as_file nd)) eqn:Hacc; cbn [andb] in Hp.
    + destruct Hp as [<-|[]].
      exists path, entry, nd. repeat split; try assumption.
      apply walked_here; assumption.
    + rewrite Hreg in Hp. destruct Hp.
  - cbn [andb] in Hp.
    destruct (Z.eqb_spec (d_type entry) DT_DIR) as [Hdir|Hdir]; [|destruct Hp].
    destruct (as_dir nd) as [err|sub] eqn:Hopen; [destruct Hp|].
    destruct (Hbelow _ _ Hp) as (dir & entry' & nd' & Hw & Heq & Ht & Ha).
    exists dir, entry', nd'. repeat split; try assumption.
    eapply walked_below; eassumption.
Qed.

(** *** No path twice in a directory tree *)

Lemma slash_free_before_slash a t : slash_free (a +:+ "/" +:+ t) = false.
Proof.
  induction a as [|c a IH]; [reflexivity|].
  change (negb (Ascii.eqb c "/") && slash_free (a +:+ "/" +:+ t) = false).
  rewrite IH. apply andb_false_r.
Qed.

Lemma first_component_unique a : forall b t t',
  slash_free a = true -> slash_free b = true ->
  a +:+ "/" +:+ t = b +:+ "/" +:+ t' -> a = b.
Proof.
  induction a as [|c a IH]; intros [|c' b] t t' Ha Hb Heq.
  - reflexivity.
  - injection Heq as Hc _. subst c'. discriminate Hb.
  - injection Heq as Hc _. subst c. discriminate Ha.
  - injection Heq as Hc Heq. subst c'.
    cbn [slash_free] in Ha, Hb.
    apply andb_true_iff in Ha as [_ Ha]. apply andb_true_iff in Hb as [_ Hb].
    f_equal. exact (IH b t t' Ha Hb Heq).
Qed.

(** A relative path contributed by a record starts with its name,
    followed by nothing or by a slash. *)
Lemma entry_matches_shape g entry nd x :
  In x (entry_matches g "" (entry, nd)) ->
  x = d_name entry \/ exists t, x = d_name entry +:+ "/" +:+ t.
Proof.
  unfold entry_matches, matched_entry.
  destruct (is_dot (d_name entry)); [intros []|].
  destruct ((d_type entry =? DT_REG) && accepts g entry (as_file nd)).
  { intros [<-|[]]. left. reflexivity. }
  destruct (d_type entry =? DT_DIR); [|intros []].
  destruct (as_dir nd) as [err|sub]; [intros []|].
  rewrite preorder_matches_prefix, List.in_map_iff.
  intros (t & <- & _). right. exists t.
  change ("" +:+ d_name entry +:+ "/") with (d_name entry +:+ "/").
  apply append_assoc.
Qed.

Lemma entry_matches_same_name g entry nd entry' nd' x :
  slash_free (d_name entry) = true -> slash_free (d_name entry') = true ->
  In x (entry_matches g "" (entry, nd)) ->
  In x (entry_matches g "" (entry', nd')) ->
  d_name entry = d_name entry'.
Proof.
  intros Hs Hs' Hx Hx'.
  apply entry_matches_shape in Hx, Hx'.
  destruct Hx as [->|(t & ->)], Hx' as [Hx'|(t' & Hx')].
  - exact Hx'.
  - rewrite Hx', slash_free_before_slash in Hs. discriminate Hs.
  - rewrite <- Hx', slash_free_before_slash in Hs'. discriminate Hs'.
  - exact (first_component_unique _ _ _ _ Hs Hs' Hx').
Qed.

Lemma entry_matches_NoDup g e :
  below (fun sub => NoDup (preorder_matches g sub "")) e ->
  NoDup (entry_matches g "" e).
Proof.
  destruct e as [entry nd]. unfold below. cbn [snd]. intros Hsub.
  unfold entry_matches, matched_entry.
  destruct (is_dot (d_name entry)); [constructor|].
  destruct ((d_type entry =? DT_REG) && accepts g entry (as_file nd)).
  { apply NoDup_singleton. }
  destruct (d_type entry =? DT_DIR); [|constructor].
  destruct (as_dir nd) as [err|sub]; [constructor|].
  rewrite preorder_matches_prefix.
  apply (NoDup_fmap_2 (String.append _)). exact Hsub.
Qed.

Lemma flat_map_entry_matches_NoDup g es :
  NoDup (map (fun e : dentry => d_name (fst e)) es) ->
  forallb slash_free (map (fun e : dentry => d_name (fst e)) es) = true ->
  Forall (below (fun sub => NoDup (preorder_matches g sub ""))) es ->
  NoDup (flat_map (entry_matches g "") es).
Proof.
  induction es as [|[entry nd] es IH]; intros Hnames Hslash Hbelow;
    [constructor|].
  cbn [map fst forallb] in Hnames, Hslash.
  apply NoDup_cons in Hnames as [Hfresh Hnames].
  apply andb_true_iff in Hslash as [Hs Hslash].
  inversion Hbelow as [|? ? He Hes]; subst.
  cbn [flat_map]. apply NoDup_app. split; [|split].
  - apply entry_matches_NoDup. exact He.
  - intros x Hx Hx'. apply list_elem_of_In in Hx, Hx'.
    apply List.in_flat_map in Hx' as ([entry' nd'] & Hin & Hx').
    apply Hfresh. apply list_elem_of_In.
    assert (Hs' : slash_free (d_name entry') = true).
    { rewrite forallb_forall in Hslash. apply Hslash.
      apply (List.in_map (fun e : dentry => d_name (fst e)) _ _ Hin). }
    rewrite (entry_matches_same_name g entry nd entry' nd' x Hs Hs' Hx Hx').
    apply (List.in_map (fun e : dentry => d_name (fst e)) _ _ Hin).
  - apply IH; assumption.
Qed.

Lemma well_formed_below g rs :
  Forall (below_read (fun sub => well_formed sub = true ->
                                 NoDup (preorder_matches g sub ""))) rs ->
  forallb (fun r : getdents dentry =>
             match r with
             | ReadOk batch =>
                 forallb (fun e : dentry =>
                            match as_dir (snd e) with
                            | DirOpens sub => well_formed sub
                            | DirFails _ => true
                            end) batch
             | ReadFails _ => true
             end) rs = true ->
  Forall (below_read (fun sub => NoDup (preorder_matches g sub ""))) rs.
Proof.
  induction rs as [|r rs IH]; intros Hall Hwf; [constructor|].
  inversion Hall as [|? ? Hr Hrest]; subst.
  cbn [forallb] in Hwf. apply andb_true_iff in Hwf as [Hwr Hwf].
  constructor; [|apply IH; assumption].
  destruct r as [err|batch]; [exact I|].
  cbn [below_read] in Hr |- *. clear Hall IH Hrest Hwf.
  induction Hr as [|e batch He Hb IHb]; [constructor|].
  cbn [forallb] in Hwr. apply andb_true_iff in Hwr as [Hwe Hwb].
  constructor; [|apply IHb; exact Hwb].
  unfold below in He |- *. destruct (as_dir (snd e)); [exact I|].
  apply He. exact Hwe.
Qed.

Lemma preorder_matches_NoDup g s : forall path,
  well_formed s = true -> NoDup (preorder_matches g s path).
Proof.
  intros path Hwf. rewrite preorder_matches_prefix.
  apply (NoDup_fmap_2 (String.append _)).
  revert Hwf. clear path.
  induction s as [rs Hall] using dirstream_nested_ind.
  intros Hwf. cbn [well_formed] in Hwf.
  apply andb_true_iff in Hwf as [Hnames Hwf].
  unfold names_ok in Hnames. apply andb_true_iff in Hnames as [Hnodup Hslash].
  apply bool_decide_eq_true in Hnodup.
  rewrite preorder_matches_unfold.
  apply flat_map_entry_matches_NoDup; [exact Hnodup|exact Hslash|].
  apply below_entries_read. apply well_formed_below; assumption.
Qed.

(** C4. A walk appends to the ResultSet exactly the pre-order list; every
    path of that list is the path of a record the walker scanned whose
    type is regular file and which passes every configured test (inode
    and name, and, when the criteria ask for the size or the link count,
    the size and link-count tests on its fetched status); a record that is
    not a directory contributes at most one path; in a directory tree no
    path is appended twice; and a record that is neither a regular file
    nor a directory changes nothing, whatever filter and recursive call
    the walker has: it is neither filtered, nor appended, nor opened. *)
Theorem appended_once_and_only_when_matching g s dir_fd path w :
  results (visit g s dir_fd path w) =
    (results w ++ preorder_matches g s path)%list /\
  (forall p, In p (preorder_matches g s path) ->
     exists dir entry nd,
       walked path s dir (entry, nd) /\ p = dir +:+ d_name entry /\
       d_type entry = DT_REG /\
       inode_ok g entry /\ name_ok g entry /\
       (needs_stat g = true ->
        exists stats, as_file nd = StatOk stats /\
                      size_ok g stats /\ nlinks_ok g stats)) /\
  (forall e p, d_type (fst e) <> DT_DIR ->
     (length (entry_matches g p e) <= 1)%nat) /\
  (well_formed s = true -> NoDup (preorder_matches g s path)) /\
  (forall filter rec entry nd fd p w',
     d_type entry <> DT_REG -> d_type entry <> DT_DIR ->
     scan_entry filter rec fd p w' (entry, nd) = w' /\
     entry_matches g p (entry, nd) = []).
Proof.
  split; [apply visit_results|]. split; [|split; [|split]].
  - intros p Hp.
    destruct (preorder_matches_walked g s path p Hp)
      as (dir & entry & nd & Hw & Heq & Ht & Ha).
    apply accepts_spec in Ha as (Hi & Hn & Hs).
    exists dir, entry, nd. repeat split; assumption.
  - intros [entry nd] p Hd. cbn [fst] in Hd.
    unfold entry_matches, matched_entry.
    destruct (is_dot (d_name entry)); [simpl; lia|].
    destruct ((d_type entry =? DT_REG) && accepts g entry (as_file nd));
      [simpl; lia|].
    apply Z.eqb_neq in Hd. rewrite Hd. simpl. lia.
  - apply preorder_matches_NoDup.
  - intros filter rec entry nd fd p w' Hr Hd. split.
    + apply scan_entry_other; assumption.
    + unfold entry_matches, matched_entry.
      apply Z.eqb_neq in Hr, Hd. rewrite Hr, Hd.
      destruct (is_dot (d_name entry)); reflexivity.
Qed.

Lemma appended_once_and_only_when_matching_witness :
  let g := with_nlinks_target 1 (with_size_target 100 (with_size_mode LESS globals0)) in
  well_formed sample_tree = true /\
  results (visit g sample_tree 3 "/tmp/" at_root) = ["/tmp/a"; "/tmp/sub/b"; "/tmp/z"] /\
  NoDup (preorder_matches g sample_tree "/tmp/").
Proof.
  intros g.
  destruct (appended_once_and_only_when_matching g sample_tree 3 "/tmp/" at_root)
    as (Hres & _ & _ & Hnodup & _).
  assert (Hwf : well_formed sample_tree = true) by (vm_compute; reflexivity).
  split; [exact Hwf|]. split; [exact Hres|exact (Hnodup Hwf)].
Defined.

(** A symbolic link that points to a directory holding a matching file is
    invisible to the walk. *)
Example symlink_is_invisible :
  visit globals0
    (Stream [ReadOk [symlink 20 "link"
                       (Node (StatOk {| st_size := 100; st_nlink := 1 |})
                             (DirOpens one_file))]])
    3 "/tmp/" at_root
  = log (SysGetdents64 3 0) (log (SysGetdents64 3 1) at_root).
Proof. reflexivity. Qed.

(** ** Command line *)

(** [set_args] only writes to standard output, and only when it fails. *)
Lemma set_option_frame option value g w :
  match set_option option value g w with
  | inl (_, w') => w' = w
  | inr (_, w') => exists msg, msg <> "" /\ w' = print msg w
  end.
Proof.
  unfold set_option, error_multiple_specified.
  repeat match goal with
         | |- context [if ?b then _ else _] => destruct b
         | |- context [match stoul ?v with _ => _ end] => destruct (stoul v)
         | |- context [match stoi ?v with _ => _ end] => destruct (stoi v)
         end;
    try reflexivity; eexists; (split; [|reflexivity]); discriminate.
Qed.

(** What [set_args] returns: -1 after a message, or the index of the one
    positional argument, with the world untouched. *)
Lemma set_args_loop_spec args :
  forall i hasDir dirPosition g w r g' w',
  0 <= dirPosition ->  0 <= i ->
  set_args_loop args i hasDir dirPosition g w = (r, g', w') ->
  (r = -1 /\ exists msg, msg <> "" /\ w' = print msg w) \/
  (r <> -1 /\ w' = w /\
   ((hasDir = true /\ r = dirPosition) \/
    (hasDir = false /\
     exists k a, nth_error args k = Some a /\ r = i + Z.of_nat k /\
                 Ascii.eqb (first_char a) "-" = false))).
Proof.
  induction args as [args IH] using (induction_ltof1 _ (@length string)).
  unfold ltof in IH. intros i hasDir dirPosition g w r g' w' Hdp Hi Hrun.
  destruct args as [|a rest]; cbn [set_args_loop] in Hrun.
  - destruct hasDir; cbn [negb] in Hrun; injection Hrun as <- <- <-.
    + right. split; [lia|]. split; [reflexivity|]. left. split; reflexivity.
    + left. split; [reflexivity|]. eexists. split; [|reflexivity]. discriminate.
  - destruct (Ascii.eqb (first_char a) "-") eqn:Hdash.
    + destruct rest as [|value rest'].
      { injection Hrun as <- <- <-. left. split; [reflexivity|].
        eexists. split; [|reflexivity]. discriminate. }
      pose proof (set_option_frame a value g w) as Hopt.
      destruct (set_option a value g w) as [[g1 w1]|[g1 w1]].
      * subst w1.
        apply (IH rest') in Hrun; [|simpl; lia|exact Hdp|lia].
        destruct Hrun as [Hfail|(Hr & Hw & Hpos)]; [left; exact Hfail|].
        right. split; [exact Hr|]. split; [exact Hw|].
        destruct Hpos as [Hpos|(Hhd & k & b & Hk & Hrk & Hb)]; [left; exact Hpos|].
        right. split; [exact Hhd|]. exists (S (S k)), b.
        split; [exact Hk|]. split; [lia|exact Hb].
      * injection Hrun as <- <- <-. left. split; [reflexivity|exact Hopt].
    + destruct hasDir.
      { injection Hrun as <- <- <-. left. split; [reflexivity|].
        eexists. split; [|reflexivity]. discriminate. }
      apply (IH rest) in Hrun; [|simpl; lia|exact Hi|lia].
      destruct Hrun as [Hfail|(Hr & Hw & Hpos)]; [left; exact Hfail|].
      right. split; [exact Hr|]. split; [exact Hw|]. right.
      split; [reflexivity|]. exists 0%nat, a.
      destruct Hpos as [[_ ->]|[Hhd _]]; [|discriminate Hhd].
      split; [reflexivity|]. split; [lia|exact Hdash].
Qed.

Lemma set_args_spec argv g w r g' w' :
  set_args argv g w = (r, g', w') ->
  (r = -1 /\ exists msg, msg <> "" /\ w' = print msg w) \/
  (r <> -1 /\ w' = w /\
   exists a, nth_error argv (Z.to_nat r) = Some a /\
             Ascii.eqb (first_char a) "-" = false).
Proof.
  unfold set_args. intros Hrun.
  apply set_args_loop_spec in Hrun; [|lia|lia].
  destruct Hrun as [Hfail|(Hr & Hw & [[Hhd _]|(_ & k & a & Hk & Hrk & Ha)])];
    [left; exact Hfail|discriminate Hhd|].
  right. split; [exact Hr|]. split; [exact Hw|]. exists a. split; [|exact Ha].
  replace (Z.to_nat r) with (S k) by lia.
  destruct argv as [|prog args]; [destruct k; discriminate Hk|exact Hk].
Qed.

Lemma print_results_results w : results (print_results w) = results w.
Proof.
  unfold print_results. generalize (results w) at 1 as l. revert w.
  intros w l. revert w.
  induction l as [|r l IH]; intros w; [reflexivity|].
  simpl. rewrite IH. reflexivity.
Qed.

Lemma root_path_spec arg path :
  root_path arg = Some path -> arg <> "" /\ (path = arg \/ path = arg +:+ "/").
Proof.
  unfold root_path. destruct (back arg) as [c|] eqn:Hback; [|discriminate].
  intros Heq. injection Heq as <-. split.
  - intros ->. discriminate Hback.
  - destruct (Ascii.eqb c "/"); [left|right]; reflexivity.
Qed.

Lemma root_path_none arg : root_path arg = None -> arg = "".
Proof.
  unfold root_path. destruct (back arg) as [c|] eqn:Hback; [discriminate|].
  intros _. induction arg as [|c arg IH]; [reflexivity|].
  simpl in Hback. destruct arg; [discriminate Hback|]. discriminate (IH Hback).
Qed.

(** The slash is added exactly when the argument does not end in one. *)
Lemma root_path_slash arg path :
  root_path arg = Some path ->
  exists c, back arg = Some c /\
            (c = "/"%char -> path = arg) /\
            (c <> "/"%char -> path = arg +:+ "/").
Proof.
  unfold root_path. destruct (back arg) as [c|]; [|discriminate].
  intros Heq. injection Heq as <-. exists c. split; [reflexivity|].
  destruct (Ascii.eqb_spec c "/") as [Hc|Hc]; cbn [negb]; split;
    intros H; (reflexivity || contradiction).
Qed.

(** When the command line is accepted and the directory opens, the
    ResultSet at the end of [main] is what the walk from the root prefix
    appended to an empty vector. *)
Lemma main_results argv s execv_errno dirPosition g w0 arg path :
  set_args argv globals0 world0 = (dirPosition, g, w0) ->
  dirPosition <> -1 ->
  nth_error argv (Z.to_nat dirPosition) = Some arg ->
  root_path arg = Some path ->
  exists w, main argv (DirOpens s) execv_errno = Some (g, w) /\
            results w = preorder_matches g s path.
Proof.
  intros Hset Hpos Harg Hroot. unfold main. rewrite Hset.
  apply Z.eqb_neq in Hpos. rewrite Hpos, Harg, Hroot.
  destruct (set_args_spec _ _ _ _ _ _ Hset) as [[Hr _]|(_ & -> & _)];
    [apply Z.eqb_neq in Hpos; contradiction|].
  destruct (String.eqb (exec_target g) "").
  - eexists. split; [reflexivity|].
    rewrite print_results_results. cbn [close log fd_close results].
    rewrite visit_results. reflexivity.
  - destruct execv_errno as [err|]; eexists; (split; [reflexivity|]);
      cbn [print_error print close log fd_close results];
      rewrite visit_results; reflexivity.
Qed.

(** C3 (as the code has it). The paths of the ResultSet are not relative
    to the root: when the command line is accepted and the directory
    opens, each is the directory argument as given, with a slash added
    unless it ends in one, followed by the relative directory prefix and
    the file name of a regular file the walk scanned. An empty directory
    argument is outside the defined behaviour of [main]. *)
Theorem results_carry_root_prefix argv s execv_errno dirPosition g w0 :
  set_args argv globals0 world0 = (dirPosition, g, w0) ->
  dirPosition <> -1 ->
  exists arg,
    nth_error argv (Z.to_nat dirPosition) = Some arg /\
    match root_path arg with
    | None => arg = "" /\ main argv (DirOpens s) execv_errno = None
    | Some path =>
        arg <> "" /\ (path = arg \/ path = arg +:+ "/") /\
        (exists c, back arg = Some c /\
                   (c = "/"%char -> path = arg) /\
                   (c <> "/"%char -> path = arg +:+ "/")) /\
        exists w,
          main argv (DirOpens s) execv_errno = Some (g, w) /\
          results w = map (String.append path) (preorder_matches g s "") /\
          forall p, In p (results w) ->
            exists dir entry nd,
              walked "" s dir (entry, nd) /\ d_type entry = DT_REG /\
              p = path +:+ dir +:+ d_name entry
    end.
Proof.
  intros Hset Hpos.
  destruct (set_args_spec _ _ _ _ _ _ Hset) as [[Hr _]|(_ & Hw & arg & Harg & _)];
    [contradiction|].
  exists arg. split; [exact Harg|].
  destruct (root_path arg) as [path|] eqn:Hroot.
  - destruct (root_path_spec _ _ Hroot) as [Hne Hpath].
    split; [exact Hne|]. split; [exact Hpath|].
    split; [exact (root_path_slash _ _ Hroot)|].
    destruct (main_results argv s execv_errno _ _ _ _ _ Hset Hpos Harg Hroot)
      as (w & Hmain & Hres).
    exists w. split; [exact Hmain|].
    rewrite Hres, preorder_matches_prefix. split; [reflexivity|].
    intros p Hp. apply List.in_map_iff in Hp as (rel & <- & Hrel).
    destruct (preorder_matches_walked g s "" rel Hrel)
      as (dir & entry & nd & Hwalk & -> & Ht & _).
    exists dir, entry, nd. repeat split; assumption.
  - split; [apply root_path_none; exact Hroot|].
    unfold main. rewrite Hset. apply Z.eqb_neq in Hpos.
    rewrite Hpos, Harg, Hroot. reflexivity.
Qed.

Lemma results_carry_root_prefix_witness :
  exists w w',
    main ["os-find"; "/tmp"] (DirOpens sample_tree) None = Some (globals0, w) /\
    results w =
      map (String.append "/tmp/") (preorder_matches globals0 sample_tree "") /\
    main ["os-find"; "/tmp/"] (DirOpens sample_tree) None = Some (globals0, w') /\
    results w' =
      map (String.append "/tmp/") (preorder_matches globals0 sample_tree "") /\
    preorder_matches globals0 sample_tree "" = ["a"; "sub/b"; "sub/c"; "z"].
Proof.
  destruct (results_carry_root_prefix ["os-find"; "/tmp"] sample_tree None
              1 globals0 world0 eq_refl ltac:(discriminate))
    as (arg & Harg & H).
  injection Harg as <-.
  destruct H as (_ & _ & (c & Hc & _ & Hadd) & w & Hmain & Hres & _).
  injection Hc as <-.
  destruct (results_carry_root_prefix ["os-find"; "/tmp/"] sample_tree None
              1 globals0 world0 eq_refl ltac:(discriminate))
    as (arg' & Harg' & H').
  injection Harg' as <-.
  destruct H' as (_ & _ & (c' & Hc' & Hkeep & _) & w' & Hmain' & Hres' & _).
  injection Hc' as <-.
  exists w, w'. split; [exact Hmain|].
  split; [rewrite <- (Hadd ltac:(discriminate)) at 1; exact Hres|].
  split; [exact Hmain'|].
  split; [rewrite <- (Hkeep eq_refl) at 1; exact Hres'|reflexivity].
Defined.

(** C3 as stated fails: for the directory argument "/tmp" and a directory
    holding the file "a", the ResultSet holds "/tmp/a", which is absolute
    and starts with the root path, where the relative directory prefix
    followed by the file name is "a". *)
Lemma results_are_not_root_relative :
  exists g w,
    main ["os-find"; "/tmp"] (DirOpens one_file) None = Some (g, w) /\
    results w = ["/tmp/a"] /\
    preorder_matches g one_file "" = ["a"] /\
    results w <> preorder_matches g one_file "" /\
    String.prefix "/tmp" "/tmp/a" = true /\
    first_char "/tmp/a" = "/"%char.
Proof.
  eexists. eexists. split; [reflexivity|].
  repeat split. discriminate.
Qed.

(** *** Rejected command lines *)

Lemma set_option_unknown o value g w :
  known_option o = false ->
  set_option o value g w = inr (g, print ("Unknown option used: " +:+ o +:+ endl) w).
Proof.
  unfold known_option. intros Hk. apply bool_decide_eq_false in Hk.
  unfold set_option.
  destruct (String.eqb_spec o "-inum") as [->|_]; [exfalso; apply Hk; apply list_elem_of_In; simpl; tauto|].
  destruct (String.eqb_spec o "-name") as [->|_]; [exfalso; apply Hk; apply list_elem_of_In; simpl; tauto|].
  destruct (String.eqb_spec o "-size") as [->|_]; [exfalso; apply Hk; apply list_elem_of_In; simpl; tauto|].
  destruct (String.eqb_spec o "-nlinks") as [->|_]; [exfalso; apply Hk; apply list_elem_of_In; simpl; tauto|].
  destruct (String.eqb_spec o "-exec") as [->|_]; [exfalso; apply Hk; apply list_elem_of_In; simpl; tauto|].
  reflexivity.
Qed.

Lemma set_option_when_set o value g w :
  option_is_set o g = true -> exists x, set_option o value g w = inr x.
Proof.
  unfold option_is_set, set_option.
  destruct (String.eqb o "-inum").
  { intros ->. eexists. reflexivity. }
  destruct (String.eqb o "-name").
  { intros ->. eexists. reflexivity. }
  destruct (String.eqb o "-size").
  { intros ->. eexists. reflexivity. }
  destruct (String.eqb o "-nlinks").
  { intros ->. eexists. reflexivity. }
  destruct (String.eqb o "-exec").
  { intros ->. eexists. reflexivity. }
  discriminate.
Qed.

(** No option resets a variable to its initial value once another value is
    in it. *)
Lemma set_option_keeps_set o o' value g w g' w' :
  option_is_set o g = true ->
  set_option o' value g w = inl (g', w') ->
  option_is_set o g' = true.
Proof.
  unfold set_option. intros Hset Hrun.
  repeat match type of Hrun with
         | context [if negb ?b then _ else _] => destruct (negb b) eqn:?
         | context [if ?b then _ else _] => destruct b
         | context [match stoul ?v with _ => _ end] => destruct (stoul v)
         | context [match stoi ?v with _ => _ end] => destruct (stoi v)
         end;
    try discriminate Hrun; injection Hrun as <- _;
    revert Hset; unfold option_is_set;
    cbn [inode_target name_target size_mode size_target nlinks_target
         exec_target with_inode_target with_name_target with_size_mode
         with_size_target with_nlinks_target with_exec_target];
    repeat match goal with
           | |- context [String.eqb o ?x] => destruct (String.eqb o x)
           end;
    try (intros H; exact H);
    intros H; congruence.
Qed.

(** An unknown option, or an option whose variable is already set, makes
    [set_args] return -1 wherever it stands among the options. *)
Lemma set_args_loop_rejects args :
  forall i hasDir dirPosition g w o,
  In o (options_of args) ->
  known_option o = false \/ option_is_set o g = true ->
  fst (fst (set_args_loop args i hasDir dirPosition g w)) = -1.
Proof.
  induction args as [args IH] using (induction_ltof1 _ (@length string)).
  unfold ltof in IH. intros i hasDir dirPosition g w o Hin Hbad.
  destruct args as [|a rest]; [destruct Hin|].
  cbn [set_args_loop options_of] in Hin |- *.
  destruct (Ascii.eqb (first_char a) "-").
  - destruct rest as [|value rest']; [reflexivity|].
    destruct (set_option a value g w) as [[g1 w1]|[g1 w1]] eqn:Hopt;
      [|reflexivity].
    destruct Hin as [->|Hin].
    + destruct Hbad as [Hk|Hs].
      * rewrite set_option_unknown in Hopt by exact Hk. discriminate Hopt.
      * destruct (set_option_when_set o value g w Hs) as [x Hx].
        rewrite Hx in Hopt. discriminate Hopt.
    + eapply (IH rest'); [simpl; lia|exact Hin|].
      destruct Hbad as [Hk|Hs]; [left; exact Hk|right].
      exact (set_option_keeps_set _ _ _ _ _ _ _ Hs Hopt).
  - destruct hasDir; [reflexivity|].
    eapply (IH rest); [simpl; lia|exact Hin|exact Hbad].
Qed.

Lemma set_args_loop_no_directory args :
  forall i dirPosition g w,
  directories_of args = [] ->
  fst (fst (set_args_loop args i false dirPosition g w)) = -1.
Proof.
  induction args as [args IH] using (induction_ltof1 _ (@length string)).
  unfold ltof in IH. intros i dirPosition g w Hnone.
  destruct args as [|a rest]; [reflexivity|].
  cbn [set_args_loop directories_of] in Hnone |- *.
  destruct (Ascii.eqb (first_char a) "-"); [|discriminate Hnone].
  destruct rest as [|value rest']; [reflexivity|].
  destruct (set_option a value g w) as [[g1 w1]|[g1 w1]]; [|reflexivity].
  apply (IH rest'); [simpl; lia|exact Hnone].
Qed.

(** When [set_args] returns -1, [main] ends with the message on standard
    output and nothing else done: no system call, no descriptor opened, an
    empty ResultSet. *)
Lemma main_rejected argv root execv_errno :
  fst (fst (set_args argv globals0 world0)) = -1 ->
  exists g msg,
    msg <> "" /\
    main argv root execv_errno =
      Some (g, {| results := []; open_fds := open_fds world0;
                  cout := msg; calls := [] |}).
Proof.
  intros Hfail. unfold main.
  destruct (set_args argv globals0 world0) as [[r g] w] eqn:Hset.
  cbn [fst] in Hfail. subst r.
  destruct (set_args_spec _ _ _ _ _ _ Hset) as [(_ & msg & Hmsg & ->)|[Hr _]];
    [|contradiction].
  exists g, msg. split; [exact Hmsg|reflexivity].
Qed.

(** The parts of C9 that hold: a command line with an unknown option in
    option position, or without a directory argument, is rejected. *)
Lemma unknown_option_or_no_directory_rejected argv root execv_errno :
  (exists o, In o (options_of (tail argv)) /\ known_option o = false) \/
  directories_of (tail argv) = [] ->
  exists g msg,
    msg <> "" /\
    main argv root execv_errno =
      Some (g, {| results := []; open_fds := open_fds world0;
                  cout := msg; calls := [] |}).
Proof.
  intros Hbad. apply main_rejected. unfold set_args.
  destruct Hbad as [(o & Hin & Hk)|Hnone].
  - apply (set_args_loop_rejects _ _ _ _ _ _ o Hin). left. exact Hk.
  - apply set_args_loop_no_directory. exact Hnone.
Qed.

(** A second occurrence of an option is rejected when the first one left
    a value other than the initial one in its variable. *)
Lemma duplicate_option_rejected_when_set o value rest i hasDir dirPosition g w g' w' :
  Ascii.eqb (first_char o) "-" = true ->
  set_option o value g w = inl (g', w') ->
  option_is_set o g' = true ->
  In o (options_of rest) ->
  fst (fst (set_args_loop (o :: value :: rest) i hasDir dirPosition g w)) = -1.
Proof.
  intros Hdash Hopt Hset Hin. cbn [set_args_loop]. rewrite Hdash, Hopt.
  apply (set_args_loop_rejects _ _ _ _ _ _ o Hin). right. exact Hset.
Qed.

(** C9 (does not hold of the code). The command line
    [os-find -inum 0 -inum 7 .] names the option -inum twice; [set_args]
    accepts it, because the first occurrence leaves [inode_target] at the
    value that stands for "not given"; no message is printed, the walker
    runs with the second value and the ResultSet is not empty. *)
Theorem duplicate_option_after_initial_value_accepted :
  let argv := ["os-find"; "-inum"; "0"; "-inum"; "7"; "."] in
  options_of (tail argv) = ["-inum"; "-inum"] /\
  set_args argv globals0 world0 = (5, with_inode_target 7 globals0, world0) /\
  exists w,
    main argv (DirOpens one_file) None = Some (with_inode_target 7 globals0, w) /\
    results w = ["./a"] /\
    cout w = "./a" +:+ endl /\
    calls w = [SysOpen "." O_RDONLY_DIRECTORY 3; SysGetdents64 3 3;
               SysGetdents64 3 0; SysClose 3].
Proof.
  intros argv. split; [reflexivity|]. split; [reflexivity|].
  eexists. split; [reflexivity|]. repeat split.
Qed.

(** *** A size without a mode *)

Section FilterExt.
Variables f f' : linux_dirent64 -> file_answer -> Z -> string -> world -> bool * world.
Hypothesis f_ext : forall e a fd p w, f e a fd p w = f' e a fd p w.

Lemma scan_entry_ext dir_fd path w e :
  below (fun sub => forall fd p w, visit_with f sub fd p w = visit_with f' sub fd p w) e ->
  scan_entry f (visit_with f) dir_fd path w e =
  scan_entry f' (visit_with f') dir_fd path w e.
Proof.
  destruct e as [entry nd]. unfold below. cbn [snd]. intros Hsub.
  unfold scan_entry. rewrite f_ext.
  destruct (is_dot (d_name entry)); [reflexivity|].
  destruct (if d_type entry =? DT_REG
            then f' entry (as_file nd) dir_fd path w else (false, w))
    as [[|] w1]; [reflexivity|].
  destruct (d_type entry =? DT_DIR); [|reflexivity].
  destruct (as_dir nd) as [err|sub]; [reflexivity|].
  cbn [openat]. rewrite Hsub. reflexivity.
Qed.

Lemma visit_with_ext s : forall fd p w,
  visit_with f s fd p w = visit_with f' s fd p w.
Proof.
  induction s as [rs Hall] using dirstream_nested_ind.
  intros fd p w. rewrite !visit_with_unfold. revert w.
  induction Hall as [|r rs Hr Hrs IH]; intros w; [reflexivity|].
  destruct r as [err|batch]; [reflexivity|].
  destruct batch as [|e batch]; [reflexivity|].
  cbn [visit_reads]. rewrite IH. f_equal.
  generalize (log (SysGetdents64 fd (Z.of_nat (length (e :: batch)))) w).
  cbn [below_read] in Hr.
  induction Hr as [|e' b He Hb IHb]; intros w0; [reflexivity|].
  rewrite !visit_batch_cons, (scan_entry_ext fd p w0 e' He). apply IHb.
Qed.
End FilterExt.

Lemma matches_ignores_size_target n g entry a dir_fd dir_path w :
  size_mode g = NONE ->
  matches (with_size_target n g) entry a dir_fd dir_path w =
  matches g entry a dir_fd dir_path w.
Proof.
  intros Hm. unfold matches, size_check, nlinks_check.
  cbn [inode_target name_target size_mode size_target nlinks_target
       with_size_target].
  rewrite Hm. reflexivity.
Qed.

(** One -size option on its own. A -size value that does not start with
    '-', '=' or '+' and that [std::stoi] accepts is taken without any
    message, as long as no mode was set before: the option branch of
    [set_args] stores the number in [size_target], leaves [size_mode] at
    NONE and the loop goes on with the next argument; with the mode at
    NONE the stored number changes nothing in [matches] nor in the walk,
    and the decision of [matches] does not depend on the size of the
    file. *)
Theorem size_without_mode_is_ignored value n :
  Ascii.eqb (first_char value) "-" = false ->
  Ascii.eqb (first_char value) "=" = false ->
  Ascii.eqb (first_char value) "+" = false ->
  stoi value = Some n ->
  (forall rest i hasDir dirPosition g w,
     size_mode g = NONE ->
     set_option "-size" value g w = inl (with_size_target n g, w) /\
     set_args_loop ("-size" :: value :: rest) i hasDir dirPosition g w =
       set_args_loop rest (i + 2) hasDir dirPosition (with_size_target n g) w) /\
  (forall dir,
     Ascii.eqb (first_char dir) "-" = false ->
     set_args ["os-find"; "-size"; value; dir] globals0 world0 =
       (3, with_size_target n globals0, world0)) /\
  (forall g,
     size_mode g = NONE ->
     size_mode (with_size_target n g) = NONE /\
     (forall entry a fd path w,
        matches (with_size_target n g) entry a fd path w =
        matches g entry a fd path w) /\
     (forall s fd path w,
        visit (with_size_target n g) s fd path w = visit g s fd path w) /\
     (forall entry stats stats' fd path w,
        st_nlink stats = st_nlink stats' ->
        matches (with_size_target n g) entry (StatOk stats) fd path w =
        matches (with_size_target n g) entry (StatOk stats') fd path w)).
Proof.
  intros Hminus Hequal Hplus Hnum.
  assert (Hopt : forall g w, size_mode g = NONE ->
            set_option "-size" value g w = inl (with_size_target n g, w)).
  { intros g w Hm. unfold set_option. cbn [String.eqb Ascii.eqb Bool.eqb].
    rewrite Hm, Hminus, Hequal, Hplus. cbn [bool_decide negb decide_rel].
    rewrite Hnum. reflexivity. }
  split; [|split].
  - intros rest i hasDir dirPosition g w Hm. split; [apply Hopt; exact Hm|].
    cbn [set_args_loop first_char]. rewrite (Hopt g w Hm). reflexivity.
  - intros dir Hdir. unfold set_args. cbn [tail set_args_loop first_char].
    rewrite (Hopt globals0 world0 eq_refl), Hdir. reflexivity.
  - intros g Hm. split; [exact Hm|]. split; [|split].
    + intros. apply matches_ignores_size_target. exact Hm.
    + intros. unfold visit. apply visit_with_ext.
      intros. apply matches_ignores_size_target. exact Hm.
    + intros entry stats stats' fd path w Hl.
      rewrite !matches_ignores_size_target by exact Hm.
      unfold matches, size_check, nlinks_check. rewrite Hm, Hl. reflexivity.
Qed.

Lemma size_without_mode_is_ignored_witness :
  stoi "100" = Some 100 /\
  set_args ["os-find"; "-size"; "100"; "/tmp"] globals0 world0 =
    (3, with_size_target 100 globals0, world0) /\
  visit (with_size_target 100 globals0) sample_tree 3 "/tmp/" at_root =
    visit globals0 sample_tree 3 "/tmp/" at_root /\
  results (visit (with_size_target 100 globals0) sample_tree 3 "/tmp/" at_root) =
    ["/tmp/a"; "/tmp/sub/b"; "/tmp/sub/c"; "/tmp/z"].
Proof.
  destruct (size_without_mode_is_ignored "100" 100 eq_refl eq_refl eq_refl eq_refl)
    as (_ & Hline & Hwalk).
  split; [reflexivity|]. split; [exact (Hline "/tmp" eq_refl)|].
  destruct (Hwalk globals0 eq_refl) as (_ & _ & Hvisit & _).
  split; [apply Hvisit|reflexivity].
Defined.

(** * Further properties *)

(** ** Descriptors over a walk *)

Lemma matches_open_fds g entry a dir_fd dir_path w :
  open_fds (snd (matches g entry a dir_fd dir_path w)) =
  if cheap_checks g entry && needs_stat g && opens a
  then {[lowest_free (open_fds w)]} ∪ open_fds w
  else open_fds w.
Proof.
  destruct (cheap_checks g entry) eqn:Hc.
  - destruct (needs_stat g) eqn:Hs.
    + rewrite matches_with_stat by assumption. destruct a; reflexivity.
    + rewrite matches_without_stat by assumption. reflexivity.
  - rewrite matches_cheap_checks by assumption. reflexivity.
Qed.

Lemma size_with_fresh (X : gset Z) :
  size ({[lowest_free X]} ∪ X) = S (size X).
Proof.
  rewrite size_union, size_singleton; [reflexivity|].
  pose proof (lowest_free_fresh X). set_solver.
Qed.

Lemma status_fetches_unfold g rs :
  status_fetches g (Stream rs) = list_sum (map (entry_fetches g) (entries_read rs)).
Proof.
  simpl. induction rs as [|r rs IH]; [reflexivity|].
  destruct r as [err|batch]; [reflexivity|].
  destruct batch as [|e batch]; [reflexivity|].
  rewrite IH. change (entries_read (ReadOk (e :: batch) :: rs))
    with ((e :: batch) ++ entries_read rs)%list.
  rewrite map_app, list_sum_app. reflexivity.
Qed.

Lemma scan_entry_fds g dir_fd path w e :
  below (fds_as_counted g) e ->
  open_fds w ⊆ open_fds (scan_entry (matches g) (visit g) dir_fd path w e) /\
  size (open_fds (scan_entry (matches g) (visit g) dir_fd path w e)) =
    (size (open_fds w) + entry_fetches g e)%nat.
Proof.
  destruct e as [entry nd]. unfold below. cbn [snd]. intros Hsub.
  unfold entry_fetches, fetched_entry.
  destruct (is_dot (d_name entry)) eqn:Hdot.
  { rewrite scan_entry_dot by assumption. split; [reflexivity|lia]. }
  destruct (Z.eqb_spec (d_type entry) DT_REG) as [Hreg|Hreg].
  - rewrite scan_entry_regular by assumption. cbn zeta.
    assert (Hfds : open_fds
              (if fst (matches g entry (as_file nd) dir_fd path w)
               then push_back (path +:+ d_name entry)
                      (snd (matches g entry (as_file nd) dir_fd path w))
               else snd (matches g entry (as_file nd) dir_fd path w)) =
            open_fds (snd (matches g entry (as_file nd) dir_fd path w))).
    { destruct (fst (matches g entry (as_file nd) dir_fd path w)); reflexivity. }
    rewrite Hfds, matches_open_fds.
    destruct (cheap_checks g entry && needs_stat g && opens (as_file nd)).
    + split; [apply union_subseteq_r|]. rewrite size_with_fresh. lia.
    + split; [reflexivity|lia].
  - destruct (Z.eqb_spec (d_type entry) DT_DIR) as [Hdir|Hdir].
    + rewrite scan_entry_directory by assumption.
      destruct (as_dir nd) as [err|sub]; [split; [reflexivity|cbn; lia]|].
      cbn zeta. set (fd := lowest_free (open_fds w)).
      set (w2 := log (SysOpenat dir_fd (d_name entry) O_RDONLY_DIRECTORY fd)
                   (fd_open fd w)).
      destruct (Hsub fd (path +:+ d_name entry +:+ "/") w2) as [Hmono Hcount].
      set (w3 := visit g sub fd (path +:+ d_name entry +:+ "/") w2) in *.
      change (open_fds (close fd w3)) with (open_fds w3 ∖ {[fd]}).
      change (open_fds w2) with ({[fd]} ∪ open_fds w) in Hmono, Hcount.
      pose proof (lowest_free_fresh (open_fds w)) as Hfresh. fold fd in Hfresh.
      split.
      * intros x Hx. apply elem_of_difference. split.
        -- apply Hmono. apply elem_of_union_r. exact Hx.
        -- rewrite elem_of_singleton. intros ->. contradiction.
      * rewrite size_difference.
        -- rewrite Hcount, size_singleton. unfold fd at 1.
           rewrite size_with_fresh. lia.
        -- intros x ->%elem_of_singleton. apply Hmono.
           apply elem_of_union_l, elem_of_singleton. reflexivity.
    + rewrite scan_entry_other by assumption. split; [reflexivity|lia].
Qed.

Lemma visit_batch_fds g dir_fd path batch : forall w,
  Forall (below (fds_as_counted g)) batch ->
  open_fds w ⊆ open_fds (visit_batch (matches g) dir_fd path batch w) /\
  size (open_fds (visit_batch (matches g) dir_fd path batch w)) =
    (size (open_fds w) + list_sum (map (entry_fetches g) batch))%nat.
Proof.
  induction batch as [|e batch IH]; intros w Hall.
  - split; [reflexivity|simpl; lia].
  - inversion Hall as [|? ? He Hrest]; subst.
    rewrite visit_batch_cons. fold (visit g).
    destruct (scan_entry_fds g dir_fd path w e He) as [Hm1 Hc1].
    destruct (IH (scan_entry (matches g) (visit g) dir_fd path w e) Hrest)
      as [Hm2 Hc2].
    split; [etransitivity; eassumption|].
    rewrite Hc2, Hc1. simpl. lia.
Qed.

Lemma visit_reads_fds g dir_fd path rs : forall w,
  Forall (below_read (fds_as_counted g)) rs ->
  open_fds w ⊆ open_fds (visit_reads (matches g) dir_fd path rs w) /\
  size (open_fds (visit_reads (matches g) dir_fd path rs w)) =
    (size (open_fds w) + list_sum (map (entry_fetches g) (entries_read rs)))%nat.
Proof.
  induction rs as [|r rs IH]; intros w Hall.
  - split; [reflexivity|simpl; lia].
  - inversion Hall as [|? ? Hr Hrest]; subst.
    destruct r as [err|batch]; [split; [reflexivity|simpl; lia]|].
    destruct batch as [|e batch]; [split; [reflexivity|simpl; lia]|].
    change (visit_reads (matches g) dir_fd path (ReadOk (e :: batch) :: rs) w)
      with (visit_reads (matches g) dir_fd path rs
              (visit_batch (matches g) dir_fd path (e :: batch)
                 (log (SysGetdents64 dir_fd (Z.of_nat (length (e :: batch)))) w))).
    set (w1 := log (SysGetdents64 dir_fd (Z.of_nat (length (e :: batch)))) w).
    destruct (visit_batch_fds g dir_fd path (e :: batch) w1 Hr) as [Hm1 Hc1].
    destruct (IH (visit_batch (matches g) dir_fd path (e :: batch) w1) Hrest)
      as [Hm2 Hc2].
    change (open_fds w1) with (open_fds w) in Hm1, Hc1.
    split; [etransitivity; eassumption|].
    rewrite Hc2, Hc1.
    change (entries_read (ReadOk (e :: batch) :: rs))
      with ((e :: batch) ++ entries_read rs)%list.
    rewrite map_app, list_sum_app. lia.
Qed.

Lemma visit_fds g s : fds_as_counted g s.
Proof.
  induction s as [rs Hall] using dirstream_nested_ind.
  intros fd p w. unfold visit.
  rewrite visit_with_unfold, status_fetches_unfold.
  apply visit_reads_fds. exact Hall.
Qed.

Lemma status_fetches_without_stat g s :
  needs_stat g = false -> status_fetches g s = 0%nat.
Proof.
  intros Hs. induction s as [rs Hall] using dirstream_nested_ind.
  rewrite status_fetches_unfold. apply below_entries_read in Hall.
  induction Hall as [|[entry nd] es He Hes IH]; [reflexivity|].
  change (entry_fetches g (entry, nd) + list_sum (map (entry_fetches g) es) = 0)%nat.
  rewrite IH.
  unfold entry_fetches, fetched_entry. unfold below in He. cbn [snd] in He.
  rewrite Hs, andb_false_r.
  destruct (is_dot (d_name entry)); [reflexivity|].
  destruct (d_type entry =? DT_REG); [reflexivity|].
  destruct (d_type entry =? DT_DIR); [|reflexivity].
  destruct (as_dir nd); [reflexivity|]. rewrite He. reflexivity.
Qed.

Lemma visit_keeps_descriptors g s dir_fd path w :
  needs_stat g = false ->
  open_fds (visit g s dir_fd path w) = open_fds w.
Proof.
  intros Hs. destruct (visit_fds g s dir_fd path w) as [Hmono Hcount].
  rewrite status_fetches_without_stat in Hcount by exact Hs.
  apply leibniz_equiv. symmetry. apply set_subseteq_size_equiv; [exact Hmono|].
  lia.
Qed.

(** ** What holds from step to step of a walk *)

Section WalkSteps.
Variable g : globals.
Variable R : world -> world -> Prop.
Hypothesis R_refl : forall w, R w w.
Hypothesis R_trans : forall w1 w2 w3, R w1 w2 -> R w2 w3 -> R w1 w3.
Hypothesis R_matches :
  forall entry a dir_fd dir_path w, R w (snd (matches g entry a dir_fd dir_path w)).
Hypothesis R_push_back : forall p w, R w (push_back p w).
Hypothesis R_getdents : forall fd n w, R w (log (SysGetdents64 fd n) w).
Hypothesis R_read_error :
  forall fd path err w,
    R w (print_error err
           (print ("Error reading contents of " +:+ path +:+ endl)
              (log (SysGetdents64 fd (-1)) w))).
Hypothesis R_open_error :
  forall dir_fd name msg err w,
    R w (print_error err
           (print msg (log (SysOpenat dir_fd name O_RDONLY_DIRECTORY (-1)) w))).
Hypothesis R_opendir :
  forall dir_fd name fd w,
    R w (log (SysOpenat dir_fd name O_RDONLY_DIRECTORY fd) (fd_open fd w)).
Hypothesis R_close : forall fd w, R w (close fd w).

Lemma scan_entry_steps dir_fd path w e :
  below (fun sub => forall fd p w, R w (visit g sub fd p w)) e ->
  R w (scan_entry (matches g) (visit g) dir_fd path w e).
Proof.
  destruct e as [entry nd]. unfold below. cbn [snd]. intros Hsub.
  destruct (is_dot (d_name entry)) eqn:Hdot.
  { rewrite scan_entry_dot by assumption. apply R_refl. }
  destruct (Z.eqb_spec (d_type entry) DT_REG) as [Hreg|Hreg].
  - rewrite scan_entry_regular by assumption. cbn zeta.
    destruct (fst (matches g entry (as_file nd) dir_fd path w)).
    + eapply R_trans; [apply R_matches|apply R_push_back].
    + apply R_matches.
  - destruct (Z.eqb_spec (d_type entry) DT_DIR) as [Hdir|Hdir].
    + rewrite scan_entry_directory by assumption.
      destruct (as_dir nd) as [err|sub]; [apply R_open_error|].
      cbn zeta. eapply R_trans; [apply R_opendir|].
      eapply R_trans; [apply Hsub|apply R_close].
    + rewrite scan_entry_other by assumption. apply R_refl.
Qed.

Lemma visit_batch_steps dir_fd path batch : forall w,
  Forall (below (fun sub => forall fd p w, R w (visit g sub fd p w))) batch ->
  R w (visit_batch (matches g) dir_fd path batch w).
Proof.
  induction batch as [|e batch IH]; intros w Hall; [apply R_refl|].
  inversion Hall as [|? ? He Hrest]; subst.
  rewrite visit_batch_cons. fold (visit g).
  eapply R_trans; [apply scan_entry_steps; exact He|apply IH; exact Hrest].
Qed.

Lemma visit_steps s : forall fd p w, R w (visit g s fd p w).
Proof.
  induction s as [rs Hall] using dirstream_nested_ind.
  intros fd p w. unfold visit. rewrite visit_with_unfold. revert w.
  induction Hall as [|r rs Hr Hrs IH]; intros w; [apply R_getdents|].
  destruct r as [err|batch]; [apply R_read_error|].
  destruct batch as [|e batch]; [apply R_getdents|].
  cbn [visit_reads].
  eapply R_trans; [apply R_getdents|].
  eapply R_trans; [apply visit_batch_steps; exact Hr|apply IH].
Qed.
End WalkSteps.

(** ** System calls of a walk *)

Lemma calls_extended_refl (P : syscall -> Prop) w :
  exists new, calls w = (calls w ++ new)%list /\ Forall P new.
Proof. exists []. split; [symmetry; apply app_nil_r|constructor]. Qed.

Lemma calls_extended_trans (P : syscall -> Prop) w1 w2 w3 :
  (exists new, calls w2 = (calls w1 ++ new)%list /\ Forall P new) ->
  (exists new, calls w3 = (calls w2 ++ new)%list /\ Forall P new) ->
  exists new, calls w3 = (calls w1 ++ new)%list /\ Forall P new.
Proof.
  intros (n1 & H1 & P1) (n2 & H2 & P2). exists (n1 ++ n2)%list. split.
  - rewrite H2, H1, <- app_assoc. reflexivity.
  - apply Forall_app. split; assumption.
Qed.

(** X3. When the criteria ask neither for the size nor for the link count,
    a whole walk makes no [fstat], opens no file and runs no command: of
    the calls on files and directories, the only ones it makes are reads
    of directories, opens of subdirectories and closes. (Its reports go to
    standard output, which is not in the log of these calls.) *)
Theorem visit_without_stat_calls g s dir_fd path w :
  needs_stat g = false ->
  exists new,
    calls (visit g s dir_fd path w) = (calls w ++ new)%list /\
    Forall (fun c => walk_call c = true) new.
Proof.
  intros Hs.
  apply (visit_steps g
           (fun w w' => exists new, calls w' = (calls w ++ new)%list /\
                                    Forall (fun c => walk_call c = true) new)).
  - intros. apply calls_extended_refl.
  - intros. eapply calls_extended_trans; eassumption.
  - intros. rewrite matches_without_stat by exact Hs. apply calls_extended_refl.
  - intros. exists []. split; [symmetry; apply app_nil_r|constructor].
  - intros. eexists. split; [reflexivity|]. repeat constructor.
  - intros. eexists. split; [reflexivity|]. repeat constructor.
  - intros. eexists. split; [reflexivity|]. repeat constructor.
  - intros. eexists. split; [reflexivity|]. repeat constructor.
  - intros. eexists. split; [reflexivity|]. repeat constructor.
Qed.

Lemma visit_without_stat_calls_witness :
  exists new,
    calls (visit (with_inode_target 9 globals0) sample_tree 3 "/tmp/" at_root) =
      (calls at_root ++ new)%list /\
    Forall (fun c => walk_call c = true) new.
Proof.
  exact (visit_without_stat_calls (with_inode_target 9 globals0) sample_tree 3
           "/tmp/" at_root eq_refl).
Defined.

(** ** Every matching file is listed *)

Lemma walked_listed g path s dir e :
  walked path s dir e ->
  d_type (fst e) = DT_REG ->
  accepts g (fst e) (as_file (snd e)) = true ->
  In (dir +:+ d_name (fst e)) (preorder_matches g s path).
Proof.
  intros Hw Hreg Hacc.
  induction Hw as [path rs e Hin Hdot|path rs entry nd sub dir e Hin Hdot Hdir Hopen Hw IH].
  - rewrite preorder_matches_unfold. apply List.in_flat_map.
    exists e. split; [exact Hin|]. destruct e as [entry nd]. cbn [fst snd] in *.
    unfold entry_matches, matched_entry. rewrite Hdot, Hreg, Hacc.
    left. reflexivity.
  - rewrite preorder_matches_unfold. apply List.in_flat_map.
    exists (entry, nd). split; [exact Hin|].
    unfold entry_matches, matched_entry. rewrite Hdot, Hdir, Hopen.
    exact (IH Hreg Hacc).
Qed.

(** X4. No omission: a regular file that the walker scans (in the
    directory walked or in any subdirectory that opens below it, "." and
    ".." apart) and that [matches] accepts has its path, the prefix of its
    directory followed by its name, in the ResultSet after the walk. In
    particular, without criteria every such file is listed. *)
Theorem every_matching_file_is_listed g s dir_fd path w dir entry nd :
  walked path s dir (entry, nd) ->
  d_type entry = DT_REG ->
  (accepts g entry (as_file nd) = true ->
   In (dir +:+ d_name entry) (results (visit g s dir_fd path w))) /\
  In (dir +:+ d_name entry) (results (visit globals0 s dir_fd path w)).
Proof.
  intros Hw Hreg. split.
  - intros Hacc. rewrite visit_results. apply List.in_or_app. right.
    exact (walked_listed g path s dir (entry, nd) Hw Hreg Hacc).
  - rewrite visit_results. apply List.in_or_app. right.
    apply (walked_listed globals0 path s dir (entry, nd) Hw Hreg).
    apply accepts_spec. split; [left; reflexivity|].
    split; [left; reflexivity|discriminate].
Qed.

Lemma every_matching_file_is_listed_witness :
  let g := with_size_target 100 (with_size_mode LESS globals0) in
  In "/tmp/sub/b" (results (visit g sample_tree 3 "/tmp/" at_root)) /\
  In "/tmp/sub/b" (results (visit globals0 sample_tree 3 "/tmp/" at_root)).
Proof.
  intros g.
  assert (Hw : walked "/tmp/" sample_tree "/tmp/sub/" (regular 9 "b" 99 1)).
  { apply (walked_below "/tmp/" (reads sample_tree)
             {| d_ino := 8; d_type := DT_DIR; d_name := "sub" |}
             (Node (StatOk {| st_size := 4096; st_nlink := 2 |})
                (DirOpens (Stream [ReadOk [regular 9 "b" 99 1; regular 10 "c" 101 2]])))
             (Stream [ReadOk [regular 9 "b" 99 1; regular 10 "c" 101 2]]));
      try reflexivity.
    - simpl. tauto.
    - apply walked_here; [simpl; tauto|reflexivity]. }
  destruct (every_matching_file_is_listed g sample_tree 3 "/tmp/" at_root
              "/tmp/sub/" _ _ Hw eq_refl) as [Hg H0].
  split; [exact (Hg eq_refl)|exact H0].
Defined.

(** X5. How [getdents64] cuts a directory into buffers does not show in
    the ResultSet: a buffer delivered in one read or in two gives the same
    paths in the same order. *)
Theorem results_independent_of_buffering g b1 b2 rest dir_fd path w :
  b1 <> [] -> b2 <> [] ->
  results (visit g (Stream (ReadOk (b1 ++ b2) :: rest)) dir_fd path w) =
  results (visit g (Stream (ReadOk b1 :: ReadOk b2 :: rest)) dir_fd path w).
Proof.
  intros H1 H2. rewrite !visit_results, !preorder_matches_unfold.
  f_equal. f_equal.
  destruct b1 as [|e1 b1]; [congruence|]. destruct b2 as [|e2 b2]; [congruence|].
  cbn [entries_read app]. rewrite <- app_assoc. reflexivity.
Qed.

Lemma results_independent_of_buffering_witness :
  results (visit globals0
             (Stream [ReadOk ([regular 7 "a" 100 1] ++ [regular 12 "z" 5 1])])
             3 "/tmp/" at_root) =
  results (visit globals0
             (Stream [ReadOk [regular 7 "a" 100 1]; ReadOk [regular 12 "z" 5 1]])
             3 "/tmp/" at_root).
Proof.
  apply (results_independent_of_buffering globals0 [regular 7 "a" 100 1]
           [regular 12 "z" 5 1] [] 3 "/tmp/" at_root); discriminate.
Defined.

(** ** Accepted command lines *)

(** What [set_option] does to the globals does not depend on the world. *)
Lemma set_option_globals option value g w w2 :
  match set_option option value g w, set_option option value g w2 with
  | inl (g1, w1), inl (g2, w2') => g1 = g2 /\ w1 = w /\ w2' = w2
  | inr _, inr _ => True
  | _, _ => False
  end.
Proof.
  unfold set_option, error_multiple_specified.
  repeat match goal with
         | |- context [if ?b then _ else _] =>
             match type of b with bool => destruct b end
         | |- context [match stoul ?v with _ => _ end] => destruct (stoul v)
         | |- context [match stoi ?v with _ => _ end] => destruct (stoi v)
         end;
    first [exact I | repeat split].
Qed.

Lemma set_option_accepted option value g w g' w' :
  set_option option value g w = inl (g', w') ->
  w' = w /\ set_option option value g world0 = inl (g', world0).
Proof.
  intros Hopt. pose proof (set_option_globals option value g w world0) as H.
  rewrite Hopt in H.
  destruct (set_option option value g world0) as [[g2 w2]|x]; [|destruct H].
  destruct H as (-> & -> & ->). split; reflexivity.
Qed.

Lemma set_option_accepted_anywhere option value g g' w0 w :
  set_option option value g world0 = inl (g', w0) ->
  set_option option value g w = inl (g', w).
Proof.
  intros Hopt. pose proof (set_option_globals option value g world0 w) as H.
  rewrite Hopt in H.
  destruct (set_option option value g w) as [[g2 w2]|x]; [|destruct H].
  destruct H as (-> & _ & ->). reflexivity.
Qed.

Lemma apply_options_app ps1 : forall ps2 g,
  apply_options (ps1 ++ ps2) g =
  match apply_options ps1 g with
  | Some g1 => apply_options ps2 g1
  | None => None
  end.
Proof.
  induction ps1 as [|[o v] ps1 IH]; intros ps2 g; [reflexivity|].
  cbn [app apply_options].
  destruct (set_option o v g world0) as [[g1 w1]|x]; [apply IH|reflexivity].
Qed.

(** The loop over a run of accepted options. *)
Lemma set_args_loop_options ps : forall rest i hasDir dirPosition g w g1,
  Forall is_option ps ->
  apply_options ps g = Some g1 ->
  set_args_loop (flatten_options ps ++ rest) i hasDir dirPosition g w =
  set_args_loop rest (i + 2 * Z.of_nat (length ps)) hasDir dirPosition g1 w.
Proof.
  induction ps as [|[o v] ps IH]; intros rest i hasDir dirPosition g w g1 Hopt Happly.
  - injection Happly as <-. cbn [flatten_options app length].
    replace (i + 2 * Z.of_nat 0) with i by lia. reflexivity.
  - inversion Hopt as [|? ? Ho Hps]; subst. unfold is_option in Ho. cbn [fst] in Ho.
    cbn [apply_options] in Happly.
    destruct (set_option o v g world0) as [[g2 w2]|x] eqn:Hset; [|discriminate].
    cbn [flatten_options app set_args_loop]. rewrite Ho.
    rewrite (set_option_accepted_anywhere o v g g2 w2 w Hset).
    rewrite (IH rest (i + 2) hasDir dirPosition g2 w g1 Hps Happly).
    f_equal. cbn [length]. lia.
Qed.

(** The other way round: what a run of the loop that does not return -1
    has read. *)
Lemma set_args_loop_accepted args :
  forall i hasDir dirPosition g w r g' w',
  set_args_loop args i hasDir dirPosition g w = (r, g', w') ->
  r <> -1 ->
  if hasDir then
    exists ps, args = flatten_options ps /\ Forall is_option ps /\
               apply_options ps g = Some g' /\ r = dirPosition
  else
    exists ps1 dir ps2,
      args = (flatten_options ps1 ++ dir :: flatten_options ps2)%list /\
      Forall is_option (ps1 ++ ps2) /\
      Ascii.eqb (first_char dir) "-" = false /\
      apply_options (ps1 ++ ps2) g = Some g' /\
      r = i + 2 * Z.of_nat (length ps1).
Proof.
  induction args as [args IH] using (induction_ltof1 _ (@length string)).
  unfold ltof in IH. intros i hasDir dirPosition g w r g' w' Hrun Hr.
  destruct args as [|a rest]; cbn [set_args_loop] in Hrun.
  - destruct hasDir; cbn [negb] in Hrun; injection Hrun as <- <- <-.
    + exists []. split; [reflexivity|]. split; [constructor|split; reflexivity].
    + contradiction.
  - destruct (Ascii.eqb (first_char a) "-") eqn:Hdash.
    + destruct rest as [|value rest']; [injection Hrun as <- _ _; contradiction|].
      destruct (set_option a value g w) as [[g1 w1]|[g1 w1]] eqn:Hopt;
        [|injection Hrun as <- _ _; contradiction].
      destruct (set_option_accepted _ _ _ _ _ _ Hopt) as [-> Hopt0].
      apply (IH rest') in Hrun; [|simpl; lia|exact Hr].
      destruct hasDir.
      * destruct Hrun as (ps & -> & Hps & Happly & ->).
        exists ((a, value) :: ps). split; [reflexivity|].
        split; [constructor; [exact Hdash|exact Hps]|]. split; [|reflexivity].
        cbn [apply_options]. rewrite Hopt0. exact Happly.
      * destruct Hrun as (ps1 & dir & ps2 & -> & Hps & Hdir & Happly & ->).
        exists ((a, value) :: ps1), dir, ps2. split; [reflexivity|].
        split; [constructor; [exact Hdash|exact Hps]|].
        split; [exact Hdir|]. split.
        -- cbn [app apply_options]. rewrite Hopt0. exact Happly.
        -- cbn [length]. lia.
    + destruct hasDir; [injection Hrun as <- _ _; contradiction|].
      apply (IH rest) in Hrun; [|simpl; lia|exact Hr].
      destruct Hrun as (ps & -> & Hps & Happly & ->).
      exists [], a, ps. split; [reflexivity|]. split; [exact Hps|].
      split; [exact Hdash|]. split; [exact Happly|].
      cbn [length]. lia.
Qed.

Lemma set_args_on_options prog ps1 dir ps2 g g' w :
  Forall is_option (ps1 ++ ps2) ->
  Ascii.eqb (first_char dir) "-" = false ->
  apply_options (ps1 ++ ps2) g = Some g' ->
  set_args (prog :: flatten_options ps1 ++ dir :: flatten_options ps2) g w =
    (1 + 2 * Z.of_nat (length ps1), g', w).
Proof.
  intros Hopt Hdir Happly. apply Forall_app in Hopt as [H1 H2].
  rewrite apply_options_app in Happly.
  destruct (apply_options ps1 g) as [g1|] eqn:Happly1; [|discriminate].
  unfold set_args. cbn [tail].
  rewrite (set_args_loop_options ps1 _ 1 false 0 g w g1 H1 Happly1).
  cbn [set_args_loop]. rewrite Hdir.
  rewrite <- (app_nil_r (flatten_options ps2)).
  rewrite (set_args_loop_options ps2 [] _ true _ g1 w g' H2 Happly).
  reflexivity.
Qed.

Lemma nth_error_after_options ps1 : forall (prog dir : string) rest,
  nth_error (prog :: flatten_options ps1 ++ dir :: rest)
            (Z.to_nat (1 + 2 * Z.of_nat (length ps1))) = Some dir.
Proof.
  intros prog dir rest.
  replace (Z.to_nat (1 + 2 * Z.of_nat (length ps1)))
    with (S (2 * length ps1)) by lia.
  cbn [nth_error]. induction ps1 as [|[o v] ps1 IH]; [reflexivity|].
  replace (2 * length ((o, v) :: ps1))%nat with (S (S (2 * length ps1)))
    by (cbn [length]; lia).
  exact IH.
Qed.

(** X6. A command line made of options, each followed by its value, with
    one directory argument anywhere between them is accepted when the
    options are accepted one after the other: [set_args] prints nothing,
    returns the index of the directory argument, and leaves in the globals
    what the options set in the order they stand. The value of an option is
    taken as it is, whatever its first character. *)
Theorem set_args_accepts prog ps1 dir ps2 g g' w :
  Forall is_option (ps1 ++ ps2) ->
  Ascii.eqb (first_char dir) "-" = false ->
  apply_options (ps1 ++ ps2) g = Some g' ->
  let argv := (prog :: flatten_options ps1 ++ dir :: flatten_options ps2)%list in
  set_args argv g w = (1 + 2 * Z.of_nat (length ps1), g', w) /\
  nth_error argv (Z.to_nat (1 + 2 * Z.of_nat (length ps1))) = Some dir.
Proof.
  intros Hopt Hdir Happly argv. split.
  - apply set_args_on_options; assumption.
  - apply nth_error_after_options.
Qed.

Lemma set_args_accepts_witness :
  set_args ["os-find"; "-name"; "-inum"; "/tmp"; "-nlinks"; "2"] globals0 world0 =
    (3, with_nlinks_target 2 (with_name_target "-inum" globals0), world0) /\
  nth_error ["os-find"; "-name"; "-inum"; "/tmp"; "-nlinks"; "2"] 3 = Some "/tmp".
Proof.
  assert (Hopt : Forall is_option ([("-name", "-inum")] ++ [("-nlinks", "2")])).
  { repeat constructor. }
  exact (set_args_accepts "os-find" [("-name", "-inum")] "/tmp" [("-nlinks", "2")]
           globals0 _ world0 Hopt eq_refl eq_refl).
Defined.

(** X7. Only such command lines are accepted: when [set_args] does not
    return -1 the arguments after the program name are options with their
    values around exactly one argument that does not start with '-', each
    option was accepted in turn, the value returned is the index of that
    argument, and nothing was printed. *)
Theorem set_args_accepted_shape argv g w r g' w' :
  set_args argv g w = (r, g', w') ->
  r <> -1 ->
  exists ps1 dir ps2,
    tail argv = (flatten_options ps1 ++ dir :: flatten_options ps2)%list /\
    Forall is_option (ps1 ++ ps2) /\
    Ascii.eqb (first_char dir) "-" = false /\
    apply_options (ps1 ++ ps2) g = Some g' /\
    r = 1 + 2 * Z.of_nat (length ps1) /\
    nth_error argv (Z.to_nat r) = Some dir /\
    w' = w.
Proof.
  intros Hset Hr.
  destruct (set_args_spec _ _ _ _ _ _ Hset) as [[Hfail _]|(_ & Hw & _)];
    [contradiction|].
  unfold set_args in Hset.
  apply set_args_loop_accepted in Hset; [|exact Hr].
  destruct Hset as (ps1 & dir & ps2 & Hargs & Hopt & Hdir & Happly & Hpos).
  exists ps1, dir, ps2. repeat split; try assumption.
  destruct argv as [|prog args]; [destruct ps1 as [|[? ?] ?]; discriminate Hargs|].
  cbn [tail] in Hargs. subst args r. apply nth_error_after_options.
Qed.

Lemma set_args_accepted_shape_witness :
  exists ps1 dir ps2,
    tail ["os-find"; "-size"; "+5"; "."] =
      (flatten_options ps1 ++ dir :: flatten_options ps2)%list /\
    Forall is_option (ps1 ++ ps2) /\
    Ascii.eqb (first_char dir) "-" = false /\
    apply_options (ps1 ++ ps2) globals0 =
      Some (with_size_target 5 (with_size_mode GREATER globals0)) /\
    3 = 1 + 2 * Z.of_nat (length ps1) /\
    nth_error ["os-find"; "-size"; "+5"; "."] (Z.to_nat 3) = Some dir /\
    world0 = world0.
Proof.
  apply (set_args_accepted_shape ["os-find"; "-size"; "+5"; "."] globals0 world0
           3 _ world0 eq_refl).
  discriminate.
Defined.

(** *** The numbers [set_args] stores *)

Lemma digit_of_range c d : digit_of c = Some d -> 0 <= d <= 9.
Proof.
  unfold digit_of.
  destruct (Z.leb_spec 48 (Z.of_nat (nat_of_ascii c)));
  destruct (Z.leb_spec (Z.of_nat (nat_of_ascii c)) 57); simpl;
    intros Hd; try discriminate Hd; injection Hd as <-; lia.
Qed.

Lemma digits_from_nonneg s : forall acc, 0 <= acc -> 0 <= digits_from s acc.
Proof.
  induction s as [|c s IH]; intros acc Hacc; [exact Hacc|].
  cbn [digits_from]. destruct (digit_of c) as [d|] eqn:Hd; [|exact Hacc].
  apply digit_of_range in Hd. apply IH. lia.
Qed.

Lemma parse_number_nonneg s neg m : parse_number s = Some (neg, m) -> 0 <= m.
Proof.
  unfold parse_number.
  destruct (match skip_spaces s with
            | String "-" t => (true, t)
            | String "+" t => (false, t)
            | _ => (false, skip_spaces s)
            end) as [n s2].
  destruct (starts_with_digit s2); [|discriminate].
  intros H. injection H as _ <-. apply digits_from_nonneg. lia.
Qed.

Lemma stoul_range s v : stoul s = Some v -> 0 <= v <= ULONG_MAX.
Proof.
  unfold stoul. destruct (parse_number s) as [[neg m]|] eqn:Hp; [|discriminate].
  apply parse_number_nonneg in Hp.
  destruct (Z.leb_spec m ULONG_MAX) as [Hm|Hm]; [|discriminate].
  intros Hv. injection Hv as <-. unfold ULONG_MAX in *.
  destruct neg; [|lia].
  pose proof (Z.mod_pos_bound (- m) (2 ^ 64) ltac:(lia)). lia.
Qed.

Lemma stoi_range s v : stoi s = Some v -> INT_MIN <= v <= INT_MAX.
Proof.
  unfold stoi. destruct (parse_number s) as [[neg m]|]; [|discriminate].
  destruct (Z.leb_spec INT_MIN (if neg then - m else m));
  destruct (Z.leb_spec (if neg then - m else m) INT_MAX); simpl;
    intros Hv; try discriminate Hv; injection Hv as <-; lia.
Qed.

Lemma set_option_in_range option value g w g' w' :
  in_range g -> set_option option value g w = inl (g', w') -> in_range g'.
Proof.
  unfold set_option, in_range. intros Hg Hrun.
  repeat match type of Hrun with
         | context [if ?b then _ else _] =>
             match type of b with bool => destruct b end
         | context [match stoul ?v with _ => _ end] =>
             let H := fresh "Hnum" in
             destruct (stoul v) eqn:H; [apply stoul_range in H|]
         | context [match stoi ?v with _ => _ end] =>
             let H := fresh "Hnum" in
             destruct (stoi v) eqn:H; [apply stoi_range in H|]
         end;
    try discriminate Hrun; injection Hrun as <- _;
    cbn [inode_target name_target size_mode size_target nlinks_target
         exec_target with_inode_target with_name_target with_size_mode
         with_size_target with_nlinks_target with_exec_target];
    intuition.
Qed.

Lemma apply_options_in_range ps : forall g g',
  in_range g -> apply_options ps g = Some g' -> in_range g'.
Proof.
  induction ps as [|[o v] ps IH]; intros g g' Hg Happly.
  - injection Happly as <-. exact Hg.
  - cbn [apply_options] in Happly.
    destruct (set_option o v g world0) as [[g1 w1]|x] eqn:Hopt; [|discriminate].
    apply (IH g1); [|exact Happly].
    exact (set_option_in_range _ _ _ _ _ _ Hg Hopt).
Qed.

(** X8. The numbers [set_args] leaves in the globals fit the types they
    were parsed as: the inode number and the link count lie in
    [0, ULONG_MAX] (a number written with a minus sign wraps around), the
    size threshold in [INT_MIN, INT_MAX], although the sizes it is compared
    with are 64-bit. *)
Theorem set_args_numbers_in_range argv w r g' w' :
  set_args argv globals0 w = (r, g', w') ->
  r <> -1 ->
  in_range g'.
Proof.
  intros Hset Hr.
  unfold set_args in Hset. apply set_args_loop_accepted in Hset; [|exact Hr].
  destruct Hset as (ps1 & dir & ps2 & _ & _ & _ & Happly & _).
  apply (apply_options_in_range (ps1 ++ ps2) globals0 g'); [|exact Happly].
  unfold in_range, ULONG_MAX, INT_MIN, INT_MAX. cbn. lia.
Qed.

Lemma set_args_numbers_in_range_witness :
  in_range (with_size_target (-7) (with_size_mode GREATER
              (with_inode_target (2 ^ 64 - 1) globals0))).
Proof.
  apply (set_args_numbers_in_range ["os-find"; "-inum"; "-1"; "-size"; "+-7"; "."]
           world0 5 _ world0 eq_refl).
  discriminate.
Defined.

(** ** What [main] prints and runs *)

Lemma append_nil_r (s : string) : s +:+ "" = s.
Proof.
  induction s as [|c s IH]; [reflexivity|].
  change (String c (s +:+ "") = String c s). rewrite IH. reflexivity.
Qed.

Lemma print_lines l : forall w,
  cout (fold_left (fun w result => print (result +:+ endl) w) l w) =
    cout w +:+ lines l /\
  results (fold_left (fun w result => print (result +:+ endl) w) l w) = results w /\
  open_fds (fold_left (fun w result => print (result +:+ endl) w) l w) = open_fds w /\
  calls (fold_left (fun w result => print (result +:+ endl) w) l w) = calls w.
Proof.
  induction l as [|r l IH]; intros w.
  - cbn [fold_left lines fold_right]. rewrite append_nil_r. repeat split.
  - cbn [fold_left]. destruct (IH (print (r +:+ endl) w)) as (Hc & Hr & Hf & Hs).
    rewrite Hc, Hr, Hf, Hs. repeat split.
    cbn [print cout lines fold_right]. rewrite !append_assoc. reflexivity.
Qed.

Lemma matches_quiet_cout g entry a dir_fd dir_path w :
  negb (cheap_checks g entry && needs_stat g)
  || match a with StatOk _ => true | _ => false end = true ->
  cout (snd (matches g entry a dir_fd dir_path w)) = cout w.
Proof.
  intros Hq.
  destruct (cheap_checks g entry) eqn:Hc.
  - destruct (needs_stat g) eqn:Hs.
    + rewrite matches_with_stat by assumption.
      destruct a; [discriminate Hq|discriminate Hq|reflexivity].
    + rewrite matches_without_stat by assumption. reflexivity.
  - rewrite matches_cheap_checks by assumption. reflexivity.
Qed.

Lemma scan_entry_quiet g dir_fd path w e :
  below (fun sub => quiet g sub = true ->
                    forall fd p w, cout (visit g sub fd p w) = cout w) e ->
  quiet_entry (quiet g) g e = true ->
  cout (scan_entry (matches g) (visit g) dir_fd path w e) = cout w.
Proof.
  destruct e as [entry nd]. unfold below, quiet_entry. cbn [snd]. intros Hsub.
  destruct (is_dot (d_name entry)) eqn:Hdot.
  { intros _. rewrite scan_entry_dot by assumption. reflexivity. }
  destruct (Z.eqb_spec (d_type entry) DT_REG) as [Hreg|Hreg].
  - intros Hq. rewrite scan_entry_regular by assumption. cbn zeta.
    rewrite <- (matches_quiet_cout g entry (as_file nd) dir_fd path w Hq).
    destruct (fst (matches g entry (as_file nd) dir_fd path w)); reflexivity.
  - destruct (Z.eqb_spec (d_type entry) DT_DIR) as [Hdir|Hdir].
    + rewrite scan_entry_directory by assumption.
      destruct (as_dir nd) as [err|sub]; [discriminate|].
      intros Hq. cbn zeta. cbn [close log fd_close cout].
      rewrite (Hsub Hq). reflexivity.
    + intros _. rewrite scan_entry_other by assumption. reflexivity.
Qed.

Lemma visit_batch_quiet g dir_fd path batch : forall w,
  Forall (below (fun sub => quiet g sub = true ->
                            forall fd p w, cout (visit g sub fd p w) = cout w)) batch ->
  forallb (quiet_entry (quiet g) g) batch = true ->
  cout (visit_batch (matches g) dir_fd path batch w) = cout w.
Proof.
  induction batch as [|e batch IH]; intros w Hall Hq; [reflexivity|].
  inversion Hall as [|? ? He Hrest]; subst.
  cbn [forallb] in Hq. apply andb_true_iff in Hq as [Hqe Hqb].
  rewrite visit_batch_cons. fold (visit g).
  rewrite (IH _ Hrest Hqb). apply scan_entry_quiet; assumption.
Qed.

(** A walk that has nothing to report prints nothing. *)
Lemma visit_quiet g s :
  quiet g s = true -> forall fd p w, cout (visit g s fd p w) = cout w.
Proof.
  induction s as [rs Hall] using dirstream_nested_ind.
  intros Hq fd p w. unfold visit. rewrite visit_with_unfold. revert w.
  induction Hall as [|r rs Hr Hrs IH]; intros w; [reflexivity|].
  destruct r as [err|batch]; [discriminate Hq|].
  destruct batch as [|e batch]; [reflexivity|].
  assert (Hq' : forallb (quiet_entry (quiet g) g) (e :: batch) = true /\
                quiet g (Stream rs) = true).
  { apply andb_true_iff. exact Hq. }
  destruct Hq' as [Hqb Hqr].
  cbn [visit_reads]. rewrite (IH Hqr).
  rewrite (visit_batch_quiet g fd p (e :: batch) _ Hr Hqb). reflexivity.
Qed.

Lemma matches_calls_no_execv g entry a dir_fd dir_path w :
  exists new,
    calls (snd (matches g entry a dir_fd dir_path w)) = (calls w ++ new)%list /\
    Forall (fun c => is_execv c = false) new.
Proof.
  destruct (cheap_checks g entry) eqn:Hc.
  - destruct (needs_stat g) eqn:Hs.
    + rewrite matches_with_stat by assumption.
      destruct a; cbn [snd print_error print log calls fd_open];
        rewrite <- ?app_assoc; eexists; (split; [reflexivity|]);
        repeat constructor.
    + rewrite matches_without_stat by assumption. apply calls_extended_refl.
  - rewrite matches_cheap_checks by assumption. apply calls_extended_refl.
Qed.

(** A walk never calls [execv]. *)
Lemma visit_calls_no_execv g s dir_fd path w :
  exists new,
    calls (visit g s dir_fd path w) = (calls w ++ new)%list /\
    Forall (fun c => is_execv c = false) new.
Proof.
  apply (visit_steps g
           (fun w w' => exists new, calls w' = (calls w ++ new)%list /\
                                    Forall (fun c => is_execv c = false) new)).
  - intros. apply calls_extended_refl.
  - intros. eapply calls_extended_trans; eassumption.
  - intros. apply matches_calls_no_execv.
  - intros. exists []. split; [symmetry; apply app_nil_r|constructor].
  - intros. eexists. split; [reflexivity|]. repeat constructor.
  - intros. eexists. split; [reflexivity|]. repeat constructor.
  - intros. eexists. split; [reflexivity|]. repeat constructor.
  - intros. eexists. split; [reflexivity|]. repeat constructor.
  - intros. eexists. split; [reflexivity|]. repeat constructor.
Qed.

Lemma main_walk argv s execv_errno r g w0 arg path :
  set_args argv globals0 world0 = (r, g, w0) ->
  r <> -1 ->
  nth_error argv (Z.to_nat r) = Some arg ->
  root_path arg = Some path ->
  let fd := lowest_free (open_fds world0) in
  let walk := visit g s fd path
                (log (SysOpen arg O_RDONLY_DIRECTORY fd) (fd_open fd world0)) in
  main argv (DirOpens s) execv_errno =
    if String.eqb (exec_target g) "" then Some (g, print_results (close fd walk))
    else
      let c_results := exec_target g :: results (close fd walk) in
      match execv_errno with
      | None => Some (g, log (SysExecv (exec_target g) c_results false) (close fd walk))
      | Some err =>
          Some (g, print_error err
                     (print ("Error executing " +:+ exec_target g +:+ endl)
                        (log (SysExecv (exec_target g) c_results true)
                           (close fd walk))))
      end.
Proof.
  intros Hset Hr Harg Hroot fd walk. unfold main. rewrite Hset.
  destruct (set_args_spec _ _ _ _ _ _ Hset) as [[Hfail _]|(_ & -> & _)];
    [contradiction|].
  apply Z.eqb_neq in Hr. rewrite Hr, Harg, Hroot. reflexivity.
Qed.

(** X9. When the command line is accepted without -exec and the directory
    opens, [main] prints, after whatever the walk reported, the paths of
    the ResultSet in order, each followed by a newline, and never calls
    [execv]; on a walk that has nothing to report the output is these
    lines and nothing else. *)
Theorem main_prints_results argv s execv_errno r g w0 arg path :
  set_args argv globals0 world0 = (r, g, w0) ->
  r <> -1 ->
  nth_error argv (Z.to_nat r) = Some arg ->
  root_path arg = Some path ->
  exec_target g = "" ->
  let fd := lowest_free (open_fds world0) in
  let walk := visit g s fd path
                (log (SysOpen arg O_RDONLY_DIRECTORY fd) (fd_open fd world0)) in
  exists w,
    main argv (DirOpens s) execv_errno = Some (g, w) /\
    results w = preorder_matches g s path /\
    cout w = cout walk +:+ lines (preorder_matches g s path) /\
    Forall (fun c => is_execv c = false) (calls w) /\
    (quiet g s = true -> cout w = lines (preorder_matches g s path)).
Proof.
  intros Hset Hr Harg Hroot Hexec fd walk.
  rewrite (main_walk argv s execv_errno r g w0 arg path Hset Hr Harg Hroot).
  fold fd. fold walk. rewrite Hexec. cbn [String.eqb].
  eexists. split; [reflexivity|].
  unfold print_results.
  destruct (print_lines (results (close fd walk)) (close fd walk))
    as (Hc & Hres & _ & Hcalls).
  assert (Hwalk : results (close fd walk) = preorder_matches g s path).
  { unfold walk. cbn [close log fd_close results]. rewrite visit_results.
    reflexivity. }
  rewrite Hres, Hc, Hcalls, Hwalk.
  split; [reflexivity|]. split; [reflexivity|]. split.
  - unfold walk. cbn [close log fd_close calls].
    destruct (visit_calls_no_execv g s fd path
                (log (SysOpen arg O_RDONLY_DIRECTORY fd) (fd_open fd world0)))
      as (new & -> & Hnew).
    cbn [log calls world0 fd_open]. rewrite !Forall_app.
    split; [split; [repeat constructor|exact Hnew]|repeat constructor].
  - intros Hq. cbn [close log fd_close cout]. unfold walk.
    rewrite (visit_quiet g s Hq). reflexivity.
Qed.

Lemma main_prints_results_witness :
  exists w,
    main ["os-find"; "-size"; "-100"; "/tmp"]
         (DirOpens (Stream [ReadOk failing_batch; ReadOk [regular 13 "y" 7 1]]))
         None
      = Some (with_size_target 100 (with_size_mode LESS globals0), w) /\
    results w = ["/tmp/a"; "/tmp/sub/b"; "/tmp/z"; "/tmp/y"] /\
    cout w = ("Error reading contents of /tmp/sub/" +:+ endl
              +:+ "Input/output error" +:+ endl)
             +:+ lines ["/tmp/a"; "/tmp/sub/b"; "/tmp/z"; "/tmp/y"].
Proof.
  destruct (main_prints_results ["os-find"; "-size"; "-100"; "/tmp"]
              (Stream [ReadOk failing_batch; ReadOk [regular 13 "y" 7 1]]) None
              3 _ world0 "/tmp" "/tmp/" eq_refl ltac:(discriminate) eq_refl
              eq_refl eq_refl) as (w & Hmain & Hres & Hcout & _).
  exists w. split; [exact Hmain|]. split; [exact Hres|exact Hcout].
Defined.

(** X10. With -exec, when the directory opens, [main] prints none of the
    paths: standard output holds what the walk reported and nothing more.
    It calls [execv] once, after the walk and the close of the directory,
    on the command with the command itself and then the paths of the
    ResultSet in order as arguments, also when there is none. When the call
    fails, the line "Error executing" with the command and the line of the
    error are added to standard output, and [main] ends. *)
Theorem main_runs_command argv s r g w0 arg path :
  set_args argv globals0 world0 = (r, g, w0) ->
  r <> -1 ->
  nth_error argv (Z.to_nat r) = Some arg ->
  root_path arg = Some path ->
  exec_target g <> "" ->
  let fd := lowest_free (open_fds world0) in
  let walk := visit g s fd path
                (log (SysOpen arg O_RDONLY_DIRECTORY fd) (fd_open fd world0)) in
  let c_results := exec_target g :: preorder_matches g s path in
  (exists w,
     main argv (DirOpens s) None = Some (g, w) /\
     w = log (SysExecv (exec_target g) c_results false) (close fd walk) /\
     cout w = cout walk /\
     results w = preorder_matches g s path /\
     last (calls w) = Some (SysExecv (exec_target g) c_results false)) /\
  (forall err,
     exists w,
       main argv (DirOpens s) (Some err) = Some (g, w) /\
       w = print_error err
             (print ("Error executing " +:+ exec_target g +:+ endl)
                (log (SysExecv (exec_target g) c_results true) (close fd walk))) /\
       cout w = (cout walk +:+ ("Error executing " +:+ exec_target g +:+ endl))
                +:+ (err +:+ endl) /\
       results w = preorder_matches g s path /\
       In (SysExecv (exec_target g) c_results true) (calls w)).
Proof.
  intros Hset Hr Harg Hroot Hexec fd walk c_results.
  assert (Hwalk : results (close fd walk) = preorder_matches g s path).
  { unfold walk. cbn [close log fd_close results]. rewrite visit_results.
    reflexivity. }
  apply String.eqb_neq in Hexec.
  split; [|intros err];
    rewrite (main_walk argv s _ r g w0 arg path Hset Hr Harg Hroot);
    fold fd; fold walk; rewrite Hexec; cbn zeta; rewrite Hwalk;
    eexists; (split; [reflexivity|]); (split; [reflexivity|]);
    (split; [reflexivity|]); (split; [exact Hwalk|]).
  - cbn [log close fd_close calls]. apply last_snoc.
  - cbn [print_error print log close fd_close calls].
    apply List.in_or_app. right. left. reflexivity.
Qed.

Lemma main_runs_command_witness :
  let argv := ["os-find"; "-exec"; "/bin/echo"; "/tmp"; "-name"; "nothing"] in
  let g := with_name_target "nothing" (with_exec_target "/bin/echo" globals0) in
  (exists w,
     main argv (DirOpens sample_tree) None = Some (g, w) /\
     cout w = ("Error reading contents of /tmp/locked/" +:+ endl)
              +:+ ("Permission denied" +:+ endl) /\
     results w = [] /\
     last (calls w) = Some (SysExecv "/bin/echo" ["/bin/echo"] false)) /\
  (exists w,
     main argv (DirOpens sample_tree) (Some "No such file or directory") =
       Some (g, w) /\
     cout w = ((("Error reading contents of /tmp/locked/" +:+ endl)
                +:+ ("Permission denied" +:+ endl))
               +:+ ("Error executing /bin/echo" +:+ endl))
              +:+ ("No such file or directory" +:+ endl)).
Proof.
  intros argv g.
  destruct (main_runs_command argv sample_tree 3 g world0 "/tmp" "/tmp/"
              eq_refl ltac:(discriminate) eq_refl eq_refl ltac:(discriminate))
    as [(w & Hmain & _ & Hcout & Hres & Hcalls) Hfail].
  split.
  - exists w. split; [exact Hmain|]. split; [exact Hcout|].
    split; [exact Hres|exact Hcalls].
  - destruct (Hfail "No such file or directory") as (w' & Hmain' & _ & Hcout' & _).
    exists w'. split; [exact Hmain'|exact Hcout'].
Defined.

(** X11. When the directory argument cannot be opened, [main] reports it
    with the path it would have walked and the error, and does nothing
    else: a single failed [open], no walk, an empty ResultSet, the
    descriptors as at the start. *)
Theorem main_root_unopenable argv err execv_errno r g w0 arg path :
  set_args argv globals0 world0 = (r, g, w0) ->
  r <> -1 ->
  nth_error argv (Z.to_nat r) = Some arg ->
  root_path arg = Some path ->
  main argv (DirFails err) execv_errno =
    Some (g, {| results := [];
                open_fds := open_fds world0;
                cout := ("Error reading contents of " +:+ path +:+ endl)
                        +:+ (err +:+ endl);
                calls := [SysOpen arg O_RDONLY_DIRECTORY (-1)] |}).
Proof.
  intros Hset Hr Harg Hroot. unfold main. rewrite Hset.
  destruct (set_args_spec _ _ _ _ _ _ Hset) as [[Hfail _]|(_ & -> & _)];
    [contradiction|].
  apply Z.eqb_neq in Hr. rewrite Hr, Harg, Hroot. reflexivity.
Qed.

Lemma main_root_unopenable_witness :
  main ["os-find"; "missing"] (DirFails "No such file or directory") None =
    Some (globals0,
          {| results := [];
             open_fds := open_fds world0;
             cout := ("Error reading contents of " +:+ "missing/" +:+ endl)
                     +:+ ("No such file or directory" +:+ endl);
             calls := [SysOpen "missing" O_RDONLY_DIRECTORY (-1)] |}).
Proof.
  apply (main_root_unopenable ["os-find"; "missing"] "No such file or directory"
           None 1 globals0 world0 "missing" "missing/" eq_refl);
    [discriminate|reflexivity|reflexivity].
Defined.

Lemma print_results_open_fds w : open_fds (print_results w) = open_fds w.
Proof.
  unfold print_results.
  destruct (print_lines (results w) w) as (_ & _ & Hf & _). exact Hf.
Qed.

(** X2. When the criteria ask neither for the size nor for the link count,
    a walk leaves exactly the descriptors open that were open before it,
    whatever fails on the way, and so does the whole program: [main] ends
    with the descriptors it started with. *)
Theorem descriptors_restored_without_stat g :
  needs_stat g = false ->
  (forall s dir_fd path w, open_fds (visit g s dir_fd path w) = open_fds w) /\
  (forall argv root execv_errno w,
     main argv root execv_errno = Some (g, w) -> open_fds w = open_fds world0).
Proof.
  intros Hs. split; [intros; apply visit_keeps_descriptors; exact Hs|].
  intros argv root execv_errno w. unfold main.
  destruct (set_args argv globals0 world0) as [[r g0] w0] eqn:Hset.
  destruct (Z.eqb_spec r (-1)) as [Hr|Hr].
  - intros H. injection H as -> <-.
    destruct (set_args_spec _ _ _ _ _ _ Hset) as [(_ & msg & _ & ->)|[Hne _]];
      [reflexivity|contradiction].
  - destruct (set_args_spec _ _ _ _ _ _ Hset) as [[Hfail _]|(_ & -> & _)];
      [contradiction|].
    destruct (nth_error argv (Z.to_nat r)) as [arg|]; [|discriminate].
    destruct (root_path arg) as [path|]; [|discriminate].
    assert (Hclosed : forall s,
              open_fds (close (lowest_free (open_fds world0))
                          (visit g s (lowest_free (open_fds world0)) path
                             (log (SysOpen arg O_RDONLY_DIRECTORY
                                     (lowest_free (open_fds world0)))
                                (fd_open (lowest_free (open_fds world0)) world0))))
              = open_fds world0).
    { intros s. cbn [close log fd_close open_fds].
      rewrite visit_keeps_descriptors by exact Hs. cbn [log fd_open open_fds].
      pose proof (lowest_free_fresh (open_fds world0)). set_solver. }
    destruct root as [err|s].
    + intros H. injection H as -> <-. reflexivity.
    + destruct (String.eqb (exec_target g0) "").
      * intros H. injection H as -> <-.
        rewrite print_results_open_fds. apply Hclosed.
      * destruct execv_errno as [err|]; intros H; injection H as -> <-;
          cbn [print_error print log open_fds]; apply Hclosed.
Qed.

Lemma descriptors_restored_without_stat_witness :
  let g := with_name_target "b" globals0 in
  needs_stat g = false /\
  open_fds (visit g (Stream [ReadOk failing_batch]) 3 "/tmp/" at_root) =
    open_fds at_root.
Proof.
  intros g. split; [reflexivity|].
  destruct (descriptors_restored_without_stat g eq_refl) as [Hvisit _].
  apply Hvisit.
Defined.

(** ** Descriptors left open by the status fetches *)

Lemma closed_walk_size g s path c w :
  let fd := lowest_free (open_fds w) in
  size (open_fds (close fd (visit g s fd path (log c (fd_open fd w))))) =
    (size (open_fds w) + status_fetches g s)%nat.
Proof.
  intros fd.
  destruct (visit_fds g s fd path (log c (fd_open fd w))) as [Hmono Hcount].
  change (open_fds (log c (fd_open fd w))) with ({[fd]} ∪ open_fds w)
    in Hmono, Hcount.
  cbn [close log fd_close open_fds].
  rewrite size_difference.
  - rewrite Hcount, size_singleton. unfold fd. rewrite size_with_fresh. lia.
  - intros x ->%elem_of_singleton. apply Hmono.
    apply elem_of_union_l, elem_of_singleton. reflexivity.
Qed.

(** X1. A walk never closes a descriptor that was open when it started,
    and it ends with as many more open descriptors as it fetched file
    statuses that opened the file: every subdirectory it opened is closed
    again, every file [matches] opened for [fstat] is left open. The same
    count holds for the whole program when the command line is accepted
    and the directory opens, the root descriptor being closed. *)
Theorem visit_descriptor_count g s :
  (forall dir_fd path w,
     open_fds w ⊆ open_fds (visit g s dir_fd path w) /\
     size (open_fds (visit g s dir_fd path w)) =
       (size (open_fds w) + status_fetches g s)%nat) /\
  (forall argv execv_errno r w0 w,
     set_args argv globals0 world0 = (r, g, w0) -> r <> -1 ->
     main argv (DirOpens s) execv_errno = Some (g, w) ->
     size (open_fds w) = (size (open_fds world0) + status_fetches g s)%nat).
Proof.
  split; [intros; apply visit_fds|].
  intros argv execv_errno r w0 w Hset Hr Hmain.
  destruct (set_args_spec _ _ _ _ _ _ Hset) as [[Hfail _]|(_ & _ & arg & Harg & _)];
    [contradiction|].
  destruct (root_path arg) as [path|] eqn:Hroot.
  - rewrite (main_walk argv s execv_errno r g w0 arg path Hset Hr Harg Hroot)
      in Hmain.
    destruct (String.eqb (exec_target g) "").
    + injection Hmain as <-. rewrite print_results_open_fds.
      exact (closed_walk_size g s path _ world0).
    + destruct execv_errno as [err|]; injection Hmain as <-;
        exact (closed_walk_size g s path _ world0).
  - exfalso. unfold main in Hmain. rewrite Hset in Hmain.
    apply Z.eqb_neq in Hr. rewrite Hr, Harg, Hroot in Hmain. discriminate Hmain.
Qed.

Lemma visit_descriptor_count_witness :
  let g := with_size_target 100 (with_size_mode LESS globals0) in
  status_fetches g sample_tree = 4%nat /\
  size (open_fds (visit g sample_tree 3 "/tmp/" at_root)) = 8%nat.
Proof.
  intros g. split; [reflexivity|].
  destruct (visit_descriptor_count g sample_tree) as [Hvisit _].
  destruct (Hvisit 3 "/tmp/" at_root) as [_ H]. exact H.
Defined.

(** ** The directory argument with and without a final slash *)

Lemma back_with_slash s : back (s +:+ "/") = Some "/"%char.
Proof.
  induction s as [|c s IH]; [reflexivity|].
  change (back (String c (s +:+ "/")) = Some "/"%char).
  destruct s as [|c' s]; [reflexivity|].
  change (back (String c (String c' (s +:+ "/"))) = Some "/"%char).
  exact IH.
Qed.

Lemma first_char_with_slash s c :
  back s = Some c -> first_char (s +:+ "/") = first_char s.
Proof. destruct s; [discriminate|reflexivity]. Qed.

(** X13. A slash at the end of the directory argument changes nothing in
    the ResultSet: for an accepted command line whose directory argument
    does not end in a slash, the same command line with a slash added to
    that argument is accepted with the same criteria and gives the same
    paths, which all start with the argument followed by one slash. *)
Theorem trailing_slash_is_immaterial prog ps1 dir ps2 g s execv_errno c :
  Forall is_option (ps1 ++ ps2) ->
  Ascii.eqb (first_char dir) "-" = false ->
  apply_options (ps1 ++ ps2) globals0 = Some g ->
  back dir = Some c -> c <> "/"%char ->
  exists w1 w2,
    main (prog :: flatten_options ps1 ++ dir :: flatten_options ps2)
         (DirOpens s) execv_errno = Some (g, w1) /\
    main (prog :: flatten_options ps1 ++ (dir +:+ "/") :: flatten_options ps2)
         (DirOpens s) execv_errno = Some (g, w2) /\
    results w1 = results w2 /\
    results w1 = map (String.append (dir +:+ "/")) (preorder_matches g s "").
Proof.
  intros Hopt Hdir Happly Hback Hc.
  assert (Hroot1 : root_path dir = Some (dir +:+ "/")).
  { unfold root_path. rewrite Hback.
    apply Ascii.eqb_neq in Hc. rewrite Hc. reflexivity. }
  assert (Hroot2 : root_path (dir +:+ "/") = Some (dir +:+ "/")).
  { unfold root_path. rewrite back_with_slash. reflexivity. }
  assert (Hdir2 : Ascii.eqb (first_char (dir +:+ "/")) "-" = false).
  { rewrite (first_char_with_slash dir c Hback). exact Hdir. }
  destruct (main_results _ s execv_errno _ _ _ _ _
              (set_args_on_options prog ps1 dir ps2 globals0 g world0
                 Hopt Hdir Happly)
              ltac:(lia) (nth_error_after_options ps1 prog dir _) Hroot1)
    as (w1 & Hmain1 & Hres1).
  destruct (main_results _ s execv_errno _ _ _ _ _
              (set_args_on_options prog ps1 (dir +:+ "/") ps2 globals0 g world0
                 Hopt Hdir2 Happly)
              ltac:(lia) (nth_error_after_options ps1 prog (dir +:+ "/") _) Hroot2)
    as (w2 & Hmain2 & Hres2).
  exists w1, w2. split; [exact Hmain1|]. split; [exact Hmain2|].
  split; [rewrite Hres1, Hres2; reflexivity|].
  rewrite Hres1. apply preorder_matches_prefix.
Qed.

Lemma trailing_slash_is_immaterial_witness :
  exists w1 w2,
    main ["os-find"; "-name"; "b"; "/tmp"] (DirOpens sample_tree) None =
      Some (with_name_target "b" globals0, w1) /\
    main ["os-find"; "-name"; "b"; "/tmp/"] (DirOpens sample_tree) None =
      Some (with_name_target "b" globals0, w2) /\
    results w1 = results w2 /\
    results w1 = ["/tmp/sub/b"].
Proof.
  assert (Hopt : Forall is_option ([("-name", "b")] ++ [])).
  { repeat constructor. }
  destruct (trailing_slash_is_immaterial "os-find" [("-name", "b")] "/tmp" []
              (with_name_target "b" globals0) sample_tree None "p"%char
              Hopt eq_refl eq_refl eq_refl ltac:(discriminate))
    as (w1 & w2 & H1 & H2 & H3 & H4).
  exists w1, w2. split; [exact H1|]. split; [exact H2|].
  split; [exact H3|exact H4].
Defined.

(** ** Files whose status cannot be fetched *)

(** X14. When the criteria ask for the size or the link count, a file
    that cannot be opened, or whose [fstat] fails, is never accepted and
    the ResultSet is left alone; when it passed the tests on inode and
    name the failure is reported on standard output with the full path
    and the error, otherwise [matches] does nothing at all. *)
Theorem unreadable_file_is_excluded g entry a dir_fd dir_path w :
  needs_stat g = true ->
  (forall stats, a <> StatOk stats) ->
  let r := matches g entry a dir_fd dir_path w in
  fst r = false /\
  results (snd r) = results w /\
  (cheap_checks g entry = false -> snd r = w) /\
  (cheap_checks g entry = true ->
   cout (snd r) =
     (cout w +:+
      ((if opens a then "Error reading stats of file at "
        else "Error opening file at ") +:+ dir_path +:+ d_name entry +:+ endl))
     +:+ (errno_of a +:+ endl)).
Proof.
  intros Hs Ha r. unfold r. split; [|split; [apply matches_results|split]].
  - destruct (cheap_checks g entry) eqn:Hc.
    + rewrite matches_with_stat by assumption.
      destruct a as [err|err|stats]; [reflexivity|reflexivity|].
      exfalso. exact (Ha stats eq_refl).
    + rewrite matches_cheap_checks by assumption. reflexivity.
  - intros Hc. rewrite matches_cheap_checks by assumption. reflexivity.
  - intros Hc. rewrite matches_with_stat by assumption.
    destruct a as [err|err|stats]; [reflexivity|reflexivity|].
    exfalso. exact (Ha stats eq_refl).
Qed.

Lemma unreadable_file_is_excluded_witness :
  let g := with_nlinks_target 2 globals0 in
  let entry := {| d_ino := 7; d_type := DT_REG; d_name := "a" |} in
  let r := matches g entry (OpenFails "Permission denied") 3 "/tmp/" at_root in
  fst r = false /\
  cout (snd r) = ("Error opening file at /tmp/a" +:+ endl)
                 +:+ ("Permission denied" +:+ endl).
Proof.
  intros g entry r.
  destruct (unreadable_file_is_excluded g entry (OpenFails "Permission denied")
              3 "/tmp/" at_root eq_refl ltac:(discriminate))
    as (Hf & _ & _ & Hcout).
  split; [exact Hf|exact (Hcout eq_refl)].
Defined.

(** ** What [set_args] touches *)

Lemma append_nonempty (s msg : string) : msg <> "" -> s +:+ msg <> s.
Proof.
  intros Hmsg Heq. apply Hmsg.
  apply (String.app_inj s). rewrite Heq, append_nil_r. reflexivity.
Qed.

(** X15. [set_args] writes to standard output only, and exactly when it
    returns -1: a command line is refused with a message and accepted in
    silence; the ResultSet, the descriptors and the system calls are never
    touched, and an accepted command line yields an index inside [argv],
    past the program name. *)
Theorem set_args_prints_iff_rejected argv g w r g' w' :
  set_args argv g w = (r, g', w') ->
  results w' = results w /\ open_fds w' = open_fds w /\ calls w' = calls w /\
  (r = -1 <-> cout w' <> cout w) /\
  (r <> -1 -> w' = w /\ 1 <= r < Z.of_nat (length argv)).
Proof.
  intros Hset.
  destruct (set_args_spec _ _ _ _ _ _ Hset)
    as [(-> & msg & Hmsg & ->)|(Hr & -> & arg & Harg & _)].
  - split; [reflexivity|]. split; [reflexivity|]. split; [reflexivity|]. split.
    + split; [|reflexivity].
      intros _. cbn [print cout]. apply append_nonempty. exact Hmsg.
    + intros Hne. contradiction.
  - split; [reflexivity|]. split; [reflexivity|]. split; [reflexivity|]. split.
    + split; [intros Heq; contradiction|].
      intros Hne. exfalso. apply Hne. reflexivity.
    + intros _. split; [reflexivity|].
      assert (Hlen : (Z.to_nat r < length argv)%nat)
        by (apply List.nth_error_Some; rewrite Harg; discriminate).
      unfold set_args in Hset.
      apply set_args_loop_accepted in Hset; [|exact Hr].
      destruct Hset as (ps1 & dir & ps2 & _ & _ & _ & _ & ->). lia.
Qed.

Lemma set_args_prints_iff_rejected_witness :
  cout (snd (set_args ["os-find"; "/tmp"; "/var"] globals0 world0)) <> cout world0
  /\ fst (fst (set_args ["os-find"; "/tmp"; "/var"] globals0 world0)) = -1.
Proof.
  destruct (set_args_prints_iff_rejected ["os-find"; "/tmp"; "/var"] globals0
              world0 _ _ _ eq_refl) as (_ & _ & _ & [Hiff _] & _).
  split; [exact (Hiff eq_refl)|reflexivity].
Defined.

(** ** A size without a mode among other options *)







